(** * GoCache: a shallow embedding of the cache engines, the consistent-hash
    ring, the single-flight coalescer, the Group read path and the server's
    peer picker, with the properties of the design document. *)

From Stdlib Require Import ZArith Lia String Ascii.
From stdpp Require Import base list gmap strings sorting pretty.

(** ** The LRU engine ([lru/lru.go]) *)
Module LRU.
Section Engine.
Context {Value : Type} (Len : Value -> Z).

(** [entry{key, value, expire}]; a [time.Time] is an instant in Z, the zero
    instant standing for the zero [time.Time] ("never expires"). *)
Record entry := mkEntry { key : string; value : Value; expire : Z }.

(** [LRUCache]: [ll] is the [container/list] list, front (most recently
    used) first; [cache] maps a key to its list element. An element is
    identified by the key of the entry it holds, so the map is the set of
    keys it is defined on and [c.cache[key]] finds the node of the list
    holding [key]. The engine is always built by [New], so the [cache == nil]
    branches are never taken; GoCache passes a nil [OnEvicted]. *)
Record LRUCache := mkLRU {
  maxCapacity : Z;
  curCapacity : Z;
  ll : list entry;
  cache : gset string
}.

Definition isZero (t : Z) : bool := Z.eqb t 0.
(** [t.Before(u)] *)
Definition before (t u : Z) : bool := Z.ltb t u.

Definition entry_size (e : entry) : Z :=
  Z.of_nat (String.length (key e)) + Len (value e).

Fixpoint find_node (k : string) (l : list entry) : option entry :=
  match l with
  | [] => None
  | e :: l' => if String.eqb (key e) k then Some e else find_node k l'
  end.

(** [ll.Remove(node)] for the node holding [k]. *)
Fixpoint remove_node (k : string) (l : list entry) : list entry :=
  match l with
  | [] => []
  | e :: l' => if String.eqb (key e) k then l' else e :: remove_node k l'
  end.

(** [node, ok := c.cache[key]] *)
Definition lookup_node (c : LRUCache) (k : string) : option entry :=
  if decide (k ∈ cache c) then find_node k (ll c) else None.

Definition New (maxCap : Z) : LRUCache := mkLRU maxCap 0 [] ∅.

Definition removeElement (c : LRUCache) (kv : entry) : LRUCache :=
  mkLRU (maxCapacity c) (curCapacity c - entry_size kv)
        (remove_node (key kv) (ll c)) (cache c ∖ {[key kv]}).

(** [RemoveOldest]: [ll.Back()] is the last element. *)
Definition RemoveOldest (c : LRUCache) : LRUCache :=
  match last (ll c) with
  | Some kv => removeElement c kv
  | None => c
  end.

(** The loop [for maxCapacity != 0 && maxCapacity < curCapacity
    { RemoveOldest() }]. [None] is a loop that does not terminate: with
    [fuel] one more than the length of the list, running out of fuel means
    the condition still holds on an empty list, where [RemoveOldest] is a
    no-op. *)
Fixpoint evict (fuel : nat) (c : LRUCache) : option LRUCache :=
  if negb (Z.eqb (maxCapacity c) 0) && Z.ltb (maxCapacity c) (curCapacity c)
  then match fuel with
       | O => None
       | S f => evict f (RemoveOldest c)
       end
  else Some c.

Definition Add (c : LRUCache) (k : string) (v : Value) (e : Z)
  : option LRUCache :=
  let c1 :=
    match lookup_node c k with
    | Some kv =>
        mkLRU (maxCapacity c) (curCapacity c + (Len v - Len (value kv)))
              (mkEntry k v e :: remove_node k (ll c)) (cache c)
    | None =>
        mkLRU (maxCapacity c)
              (curCapacity c + (Z.of_nat (String.length k) + Len v))
              (mkEntry k v e :: ll c) ({[k]} ∪ cache c)
    end in
  evict (S (length (ll c1))) c1.

(** [Get] with [now] the value returned by [c.Now()]. *)
Definition Get (c : LRUCache) (k : string) (now : Z)
  : LRUCache * option Value :=
  match lookup_node c k with
  | Some kv =>
      if negb (isZero (expire kv)) && before (expire kv) now
      then (removeElement c kv, None)
      else (mkLRU (maxCapacity c) (curCapacity c)
                  (kv :: remove_node k (ll c)) (cache c), Some (value kv))
  | None => (c, None)
  end.

Definition LenEntries (c : LRUCache) : nat := length (ll c).

(** A sequence of public operations. *)
Inductive op :=
| OpAdd (k : string) (v : Value) (e : Z)
| OpGet (k : string) (now : Z)
| OpRemoveOldest.

Definition exec_op (c : LRUCache) (o : op) : option LRUCache :=
  match o with
  | OpAdd k v e => Add c k v e
  | OpGet k now => Some (fst (Get c k now))
  | OpRemoveOldest => Some (RemoveOldest c)
  end.

Fixpoint run (c : LRUCache) (ops : list op) : option LRUCache :=
  match ops with
  | [] => Some c
  | o :: os => match exec_op c o with Some c' => run c' os | None => None end
  end.

Fixpoint sum_bytes (l : list entry) : Z :=
  match l with
  | [] => 0
  | e :: l' => entry_size e + sum_bytes l'
  end.

End Engine.
Arguments entry : clear implicits.
Arguments LRUCache : clear implicits.
Arguments op : clear implicits.
End LRU.

(** Byte slices of the scenarios: [[]byte("...")]. *)
Definition bytes (s : string) : list Byte.byte := list_byte_of_string s.
Definition blen (b : list Byte.byte) : Z := Z.of_nat (length b).

Module S1.
Import LRU.
Definition c0 : LRUCache (list Byte.byte) := New 10.
Definition step (c : option (LRUCache (list Byte.byte))) k v :=
  match c with Some c => Add blen c k (bytes v) 0 | None => None end.
Definition ca := step (Some c0) "a" "1".
Definition cb := step ca "b" "22".
Definition cc := step cb "c" "333".
Definition cd := step cc "d" "4444".
(** The byte counter and the keys, front first. *)
Definition summary (c : option (LRUCache (list Byte.byte))) : option (Z * list string) :=
  option_map (fun c => (curCapacity c, map key (ll c))) c.
(** The scenario as the specification tells it: sizes 2, 5, 9, then the
    fourth [Add] evicts exactly ["a"] and leaves size 10. *)
Definition spec_scenario : Prop :=
  option_map fst (summary ca) = Some (2%Z) /\
  option_map fst (summary cb) = Some (5%Z) /\
  option_map fst (summary cc) = Some (9%Z) /\
  summary cd = Some (10%Z, ["d"; "c"; "b"]).
End S1.

(** ** The consistent-hash ring ([consistenthash/consistenthash.go]) *)
Module ConsistentHash.

(** [crc32.ChecksumIEEE], bitwise over the reflected polynomial
    [0xEDB88320]. *)
Definition crc_poly : Z := 3988292384.
Fixpoint crc_bits (n : nat) (crc : Z) : Z :=
  match n with
  | O => crc
  | S n' => crc_bits n' (if Z.testbit crc 0
                         then Z.lxor (Z.shiftr crc 1) crc_poly
                         else Z.shiftr crc 1)
  end.
Definition crc_update (crc : Z) (b : Byte.byte) : Z :=
  crc_bits 8 (Z.lxor crc (Z.of_N (Byte.to_N b))).
Definition ChecksumIEEE (data : list Byte.byte) : Z :=
  Z.lxor (fold_left crc_update data 4294967295%Z) 4294967295%Z.

(** [Map]: [hash] returns a [uint32], converted to [int] (no change on a
    64-bit [int]); [hashMap] is [map[int]string]. *)
Record Map := mkMap {
  hash : list Byte.byte -> Z;
  replicas : Z;
  ring : list Z;
  hashMap : gmap Z string
}.

Definition New (replicas : Z) (fn : option (list Byte.byte -> Z)) : Map :=
  mkMap (default ChecksumIEEE fn) replicas [] ∅.

(** [strconv.Itoa] on the loop index. *)
Definition itoa (i : nat) : string := pretty (N.of_nat i).

(** The inner loop [for i := 0; i < m.replicas; i++] for one real node. *)
Definition add_replicas (m : Map) (key : string) : Map :=
  fold_left
    (fun m i =>
       let h := hash m (list_byte_of_string (String.append (itoa i) key)) in
       mkMap (hash m) (replicas m) (ring m ++ [h]) (<[h := key]> (hashMap m)))
    (seq 0 (Z.to_nat (replicas m))) m.

(** [Add(keys...)]; [sort.Ints] sorts the ring, and the sorted permutation
    of a list of integers is unique, so any sorting function gives it. *)
Definition Add (m : Map) (keys : list string) : Map :=
  let m' := fold_left add_replicas keys m in
  mkMap (hash m') (replicas m') (merge_sort Z.le (ring m')) (hashMap m').

(** [sort.Search(n, f)]: [i, j := 0, n; for i < j { h := int(uint(i+j) >> 1);
    if !f(h) { i = h + 1 } else { j = h } }; return i]. Every iteration
    shrinks [j - i], so [n] iterations of fuel are enough. *)
Fixpoint search_loop (fuel : nat) (f : nat -> bool) (i j : nat) : nat :=
  match fuel with
  | O => i
  | S fuel' =>
      if Nat.ltb i j then
        let h := Nat.div2 (i + j) in
        if negb (f h) then search_loop fuel' f (S h) j else search_loop fuel' f i h
      else i
  end.
Definition Search (n : nat) (f : nat -> bool) : nat := search_loop n f 0 n.

(** [Get(key)]; [m.ring[i]] is only read at indices below [len(m.ring)]. *)
Definition Get (m : Map) (key : string) : string :=
  match ring m with
  | [] => ""
  | _ =>
      let h := hash m (list_byte_of_string key) in
      let n := length (ring m) in
      let idx := Search n (fun i => bool_decide (h <= nth i (ring m) 0)%Z) in
      default "" (hashMap m !! nth (idx mod n) (ring m) 0%Z)
  end.

End ConsistentHash.

(** The injected hash of scenario S4: the key's decimal value
    ([strconv.Atoi], 0 on error), as a [uint32]. *)
Definition digit_val (b : Byte.byte) : option Z :=
  let n := Z.of_N (Byte.to_N b) in
  if (48 <=? n)%Z && (n <=? 57)%Z then Some (n - 48)%Z else None.
Fixpoint atoi_go (acc : Z) (l : list Byte.byte) : option Z :=
  match l with
  | [] => Some acc
  | b :: l' => match digit_val b with
               | Some d => atoi_go (10 * acc + d)%Z l'
               | None => None
               end
  end.
Definition identity_hash (data : list Byte.byte) : Z :=
  match data with
  | [] => 0%Z
  | _ => match atoi_go 0 data with Some v => (v mod 2 ^ 32)%Z | None => 0%Z end
  end.

Module S4.
Definition m : ConsistentHash.Map :=
  ConsistentHash.Add (ConsistentHash.New 1 (Some identity_hash)) ["6"; "4"; "2"].
End S4.

(** ** The single-flight coalescer ([singleflight], [Group.Do])

    Interleaving semantics of concurrent calls [Do(key, fn)] for one key:
    every operation of [Do] touches only [g.m[key]], so the entries of
    distinct keys never interact. Each step is one atomic region of the
    code: the check-and-install (or check-and-join) under [g.mu], the whole
    run of [fn] up to [c.wg.Done()], the [delete] under [g.mu], and a
    waiter's wake-up from [c.wg.Wait()]. [fn] counts its invocations: its
    [n]-th run returns [fn n]. *)
Module SingleFlight.
Section Do.
Context {R : Type} (fn : nat -> R).

(** The program point of one caller of [Do]. [Ret]'s [leader] flag is
    ghost state recording which branch of [Do] returned. *)
Inductive phase :=
| Start                        (* before [g.mu.Lock()] *)
| Wait (c : nat)               (* found call [c] in [g.m]: in [c.wg.Wait()] *)
| Run (c : nat)                (* installed call [c], unlocked: [fn()] runs *)
| Done (c : nat)               (* [c.val, c.err] set and [c.wg.Done()] *)
| Ret (leader : bool) (c : nat) (r : R).   (* returned [c.val, c.err] *)

(** [m] is [g.m[key]] (the call it points to, if any); [calls] holds the
    call records by allocation order, [None] while [fn] has not returned;
    [cnt] counts the invocations of [fn]; [ths] holds the callers. *)
Record state := mkState {
  m : option nat;
  calls : list (option R);
  cnt : nat;
  ths : list phase
}.

Inductive step : nat -> state -> state -> Prop :=
| step_join i s c :
    ths s !! i = Some Start -> m s = Some c ->
    step i s (mkState (m s) (calls s) (cnt s) (<[i := Wait c]> (ths s)))
| step_install i s :
    ths s !! i = Some Start -> m s = None ->
    step i s (mkState (Some (length (calls s))) (calls s ++ [None]) (cnt s)
                      (<[i := Run (length (calls s))]> (ths s)))
| step_fn i s c :
    ths s !! i = Some (Run c) ->
    step i s (mkState (m s) (<[c := Some (fn (S (cnt s)))]> (calls s)) (S (cnt s))
                      (<[i := Done c]> (ths s)))
| step_delete i s c r :
    ths s !! i = Some (Done c) -> calls s !! c = Some (Some r) ->
    step i s (mkState None (calls s) (cnt s) (<[i := Ret true c r]> (ths s)))
| step_wake i s c r :
    ths s !! i = Some (Wait c) -> calls s !! c = Some (Some r) ->
    step i s (mkState (m s) (calls s) (cnt s) (<[i := Ret false c r]> (ths s))).

Definition any_step (s s' : state) : Prop := exists i, step i s s'.

(** [N] callers enter [Do(key, fn)] together on a fresh [Group]. *)
Definition init (N : nat) : state := mkState None [] 0 (replicate N Start).

Definition reachable (N : nat) (s : state) : Prop := rtc any_step (init N) s.

(** Number of call records whose [fn] has returned. *)
Fixpoint nfilled (l : list (option R)) : nat :=
  match l with
  | [] => 0
  | Some _ :: l' => S (nfilled l')
  | None :: l' => nfilled l'
  end.

Definition is_leader (p : phase) (c : nat) : Prop := p = Run c \/ p = Done c.

End Do.
Arguments phase : clear implicits.
Arguments state : clear implicits.
End SingleFlight.

(** ** Outcomes of Go code: a value, a panic (which aborts the process
    unless recovered; GoCache never recovers), or a loop that does not
    terminate. *)
Inductive res (A : Type) :=
| Ok (a : A)
| Panic (msg : string)
| Hang.
Arguments Ok {A} a.
Arguments Panic {A} msg.
Arguments Hang {A}.

Definition bind {A B} (m : res A) (k : A -> res B) : res B :=
  match m with Ok a => k a | Panic msg => Panic msg | Hang => Hang end.

Notation "'let*' x ':=' m 'in' k" := (bind m (fun x => k))
  (at level 200, x name, m at level 100, k at level 200).

(** ** The Group ([gocache] package: [byteview.go], [cache.go], [gocache.go])

    Byte slices live in a heap of backing arrays, so that sharing a slice is
    visible: a slice is a pointer to its array and a length. *)
Module GroupModel.

Record slice := mkSlice { sptr : nat; slen : nat }.

Record Mem := mkMem { heap : gmap nat (list Byte.byte); next : nat }.

(** [make([]byte, n)] filled with [bs]: a fresh backing array. *)
Definition make (mem : Mem) (bs : list Byte.byte) : Mem * slice :=
  (mkMem (<[next mem := bs]> (heap mem)) (S (next mem)), mkSlice (next mem) (length bs)).

Definition contents (mem : Mem) (s : slice) : list Byte.byte :=
  take (slen s) (default [] (heap mem !! sptr s)).

(** [s[i] = x]; out of range, Go panics. *)
Definition store (mem : Mem) (s : slice) (i : nat) (x : Byte.byte) : res Mem :=
  match heap mem !! sptr s with
  | Some arr =>
      if Nat.ltb i (slen s)
      then Ok (mkMem (<[sptr s := <[i := x]> arr]> (heap mem)) (next mem))
      else Panic "index out of range"
  | None => Panic "index out of range"
  end.

(** [cloneBytes]: [c := make([]byte, len(b)); copy(c, b)]. *)
Definition cloneBytes (mem : Mem) (b : slice) : Mem * slice :=
  make mem (contents mem b).

(** [ByteView{b, e}] *)
Record ByteView := mkView { b : slice; e : Z }.

Definition Len (v : ByteView) : Z := Z.of_nat (slen (b v)).
Definition Expire (v : ByteView) : Z := e v.
(** [v.String()] *)
Definition String (mem : Mem) (v : ByteView) : string :=
  string_of_list_byte (contents mem (b v)).
(** [v.ByteSlice()]: [cloneBytes(v.b)]. *)
Definition ByteSlice (mem : Mem) (v : ByteView) : Mem * slice :=
  cloneBytes mem (b v).

(** [LRUcache]: the engine, built lazily on the first [add]. *)
Record LRUcache := mkLRUcache { lru : option (LRU.LRUCache ByteView); cacheBytes : Z }.

Definition lru_add (c : LRUcache) (key : string) (value : ByteView) : res LRUcache :=
  let l := default (LRU.New (cacheBytes c)) (lru c) in
  match LRU.Add Len l key value (Expire value) with
  | Some l' => Ok (mkLRUcache (Some l') (cacheBytes c))
  | None => Hang
  end.

(** [get]; [now] is the engine's clock reading. *)
Definition lru_get (c : LRUcache) (key : string) (now : Z) : LRUcache * option ByteView :=
  match lru c with
  | None => (c, None)
  | Some l => let '(l', r) := LRU.Get Len l key now in (mkLRUcache (Some l') (cacheBytes c), r)
  end.

(** The [lfu] package is not among the sources: its shell is a parameter of
    the model ([LFUcache] with its [add] and [get]); no property below
    depends on it. *)
Section WithLFU.
Context {LFUcache : Type} (lfu_new : Z -> LFUcache)
  (lfu_add : LFUcache -> string -> ByteView -> res LFUcache)
  (lfu_get : LFUcache -> string -> Z -> LFUcache * option ByteView).
(** The environment of [Client.Get] ([client.go]): the error returned by
    [clientv3.New(defaultEtcdConfig)], if any. *)
Context (etcdNew : option string).

(** The [BaseCache] interface value held by a [Group]: nil, or one of the
    two shells. *)
Inductive BaseCache :=
| CacheNil
| CacheLRU (c : LRUcache)
| CacheLFU (c : LFUcache).

Definition cache_add (c : BaseCache) (key : string) (v : ByteView) : res BaseCache :=
  match c with
  | CacheNil => Panic "invalid memory address or nil pointer dereference"
  | CacheLRU c => let* c' := lru_add c key v in Ok (CacheLRU c')
  | CacheLFU c => let* c' := lfu_add c key v in Ok (CacheLFU c')
  end.

Definition cache_get (c : BaseCache) (key : string) (now : Z)
  : res (BaseCache * option ByteView) :=
  match c with
  | CacheNil => Panic "invalid memory address or nil pointer dereference"
  | CacheLRU c => let '(c', r) := lru_get c key now in Ok (CacheLRU c', r)
  | CacheLFU c => let '(c', r) := lfu_get c key now in Ok (CacheLFU c', r)
  end.

Record KeyStats := mkStats { firstGetTime : Z; remoteCnt : Z }.

(** [Getter.Get]: an error message or the bytes of the slice it returns. *)
Definition Getter := string -> string + list Byte.byte.
(** [PeerGetter.Get(&pb.Request{Group, Key}, res)]: an error, or the bytes
    that [proto.Unmarshal] places in the fresh [res.Value]. *)
Definition PeerGetter := string -> string -> string + list Byte.byte.
(** [PeerPicker.PickPeer]: the [PeerGetter] ([None] for a nil [*Client]) and
    [ok]. *)
Definition PeerPicker := string -> res (option PeerGetter * bool).

(** [Group]; the single-flight [loader] is the coalescer modelled above:
    a lone caller of [Do] runs [fn] once and returns its result. *)
Record Group := mkGroup {
  name : string;
  getter : Getter;
  mainCache : BaseCache;
  hotCache : BaseCache;
  peers : option PeerPicker;
  keys : gmap string KeyStats
}.

Definition set_main (g : Group) c := mkGroup (name g) (getter g) c (hotCache g) (peers g) (keys g).
Definition set_hot (g : Group) c := mkGroup (name g) (getter g) (mainCache g) c (peers g) (keys g).
Definition set_keys (g : Group) k := mkGroup (name g) (getter g) (mainCache g) (hotCache g) (peers g) k.

Definition maxMinuteRemoteQPS : Z := 10.

Definition newCache (CacheType : string) (cacheBytes : Z) : BaseCache :=
  if String.eqb CacheType "lru" then CacheLRU (mkLRUcache None cacheBytes)
  else if String.eqb CacheType "lfu" then CacheLFU (lfu_new cacheBytes)
  else CacheNil.

(** [NewGroup] with the process-wide [groups] map; [getter] is [None] for a
    nil [Getter]. *)
Definition NewGroup (groups : gmap string Group) (name : string) (cacheBytes : Z)
  (CacheType : string) (getter : option Getter) : res (gmap string Group * Group) :=
  match getter with
  | None => Panic "nil Getter"
  | Some gt =>
      let g := mkGroup name gt (newCache CacheType cacheBytes)
                       (newCache CacheType cacheBytes) None ∅ in
      Ok (<[name := g]> groups, g)
  end.


(** [int64(math.Max(1, math.Round(float64(d) / 60)))]: rounding half away
    from zero, exact for second counts below 2^53. *)
Definition round_minutes (d : Z) : Z :=
  if (0 <=? d)%Z then ((d + 30) / 60)%Z else (- ((30 - d) / 60))%Z.

(** [getFromPeer]; [now] is [time.Now().Unix()]. On a nil [*Client],
    [Client.Get] first calls [clientv3.New] and returns its error; if that
    succeeds, [registry.EtcdDial(cli, c.baseURL)] dereferences the nil
    receiver. *)
Definition getFromPeer (g : Group) (mem : Mem) (peer : option PeerGetter)
  (key : string) (now : Z) : res (Group * Mem * (string + ByteView)) :=
  match peer with
  | None =>
      match etcdNew with
      | Some err => Ok (g, mem, inl err)
      | None => Panic "invalid memory address or nil pointer dereference"
      end
  | Some pg =>
      match pg (name g) key with
      | inl err => Ok (g, mem, inl err)
      | inr bs =>
          let '(mem1, value) := make mem bs in
          let view := mkView value 0 in
          match keys g !! key with
          | Some stat =>
              let stat' := mkStats (firstGetTime stat) (remoteCnt stat + 1) in
              let g1 := set_keys g (<[key := stat']> (keys g)) in
              let interval := round_minutes (now - firstGetTime stat) in
              let qps := Z.quot (remoteCnt stat') (Z.max 1 interval) in
              if (maxMinuteRemoteQPS <=? qps)%Z then
                let* hc := cache_add (hotCache g1) key view in
                Ok (set_keys (set_hot g1 hc) (delete key (keys g1)), mem1, inr view)
              else Ok (g1, mem1, inr view)
          | None => Ok (set_keys g (<[key := mkStats now 1]> (keys g)), mem1, inr view)
          end
      end
  end.

(** [getLocally]: the loader returns a slice it still holds; the view gets a
    clone of it. *)
Definition getLocally (g : Group) (mem : Mem) (key : string)
  : res (Group * Mem * (string + ByteView)) :=
  match getter g key with
  | inl err => Ok (g, mem, inl err)
  | inr bs =>
      let '(mem1, bytes) := make mem bs in
      let '(mem2, copy) := cloneBytes mem1 bytes in
      let value := mkView copy 0 in
      let* mc := cache_add (mainCache g) key value in
      let* hc := cache_add (hotCache g) key value in
      Ok (set_hot (set_main g mc) hc, mem2, inr value)
  end.

Definition load (g : Group) (mem : Mem) (key : string) (now : Z)
  : res (Group * Mem * (string + ByteView)) :=
  match peers g with
  | Some pick =>
      let* pk := pick key in
      let '(peer, ok) := pk in
      if ok then
        let* fr := getFromPeer g mem peer key now in
        let '(g1, mem1, r) := fr in
        match r with
        | inr v => Ok (g1, mem1, inr v)
        | inl _ => getLocally g1 mem1 key
        end
      else getLocally g mem key
  | None => getLocally g mem key
  end.

(** [GetCacheData]: hot cache, then main cache, then [load]. *)
Definition GetCacheData (g : Group) (mem : Mem) (key : string) (now : Z)
  : res (Group * Mem * (string + ByteView)) :=
  if String.eqb key "" then Ok (g, mem, inl "key is required") else
  let* hr := cache_get (hotCache g) key now in
  let '(hc, r) := hr in
  let g := set_hot g hc in
  match r with
  | Some v => Ok (g, mem, inr v)
  | None =>
      let* mr := cache_get (mainCache g) key now in
      let '(mc, r) := mr in
      let g := set_main g mc in
      match r with
      | Some v => Ok (g, mem, inr v)
      | None => load g mem key now
      end
  end.

End WithLFU.
Arguments BaseCache : clear implicits.
Arguments Group : clear implicits.
End GroupModel.

(** ** The gRPC [Server] ([grpc.go]) *)
Module ServerModel.

(** [Client{baseURL}] ([client.go]). *)
Record Client := NewClient { baseURL : string }.

(** [Server]; [peers] is [None] and [clients] is [None] once [Stop] has set
    them to nil. The stop channel is not modelled; the mutex [s.mu] is
    modelled by [ServerMu] below. *)
Record Server := mkServer {
  self : string;
  status : bool;
  peers : option ConsistentHash.Map;
  clients : option (gmap string Client)
}.

Definition defaultReplicas : Z := 50.

Definition NewServer (self : string) : Server :=
  mkServer self false (Some (ConsistentHash.New defaultReplicas None)) (Some ∅).

(** [strings.Split(s, ":")] *)
Fixpoint split_colon (s : string) : list string :=
  match s with
  | EmptyString => [""]
  | String.String a s' =>
      let rest := split_colon s' in
      if Ascii.eqb a ":" then "" :: rest
      else match rest with
           | r :: rs => String.String a r :: rs
           | [] => [String.String a EmptyString]
           end
  end.

(** The server with its mutex [s.mu]: [mu] is true when a method has
    returned while still holding the lock; every later [s.mu.Lock()] then
    blocks forever. *)
Record ServerMu := mkServerMu { srv : Server; mu : bool }.

(** [s.mu.Lock()]: blocks forever on a lock that is never released. *)
Definition lock {A} (n : ServerMu) (k : Server -> res A) : res A :=
  if mu n then Hang else k (srv n).

(** [Start]. The network is the environment: [listen] is the error of
    [net.Listen] on the port, if any, and [serve] is what [grpcServer.Serve]
    returns when it stops blocking, with the value of [s.status] read then.
    The server returned is the one [Start] leaves when it releases the lock
    (or returns without releasing it, when [net.Listen] fails). *)
Definition Start (n : ServerMu) (listen : string -> option string)
  (serve : bool * option string) : res (ServerMu * option string) :=
  lock n (fun s =>
  if status s then Ok (mkServerMu s false, Some "server already started") else
  let s1 := mkServer (self s) true (peers s) (clients s) in
  match nth_error (split_colon (self s)) 1 with
  | None => Panic "index out of range"
  | Some port =>
      match listen port with
      | Some err => Ok (mkServerMu s1 true, Some (String.append "failed to listen: " err))
      | None =>
          let '(st, err) := serve in
          match err with
          | Some err => if st then Ok (mkServerMu s1 false,
                                       Some (String.append "failed to serve: " err))
                        else Ok (mkServerMu s1 false, None)
          | None => Ok (mkServerMu s1 false, None)
          end
      end
  end).

(** [Set(peersAddr...)]: a nil [*Map] is dereferenced by [Add] ([sort.Ints]
    reads [m.ring]); a nil map panics on the first assignment. *)
Definition SetPeers (s : Server) (peersAddr : list string) : res Server :=
  match peers s with
  | None => Panic "invalid memory address or nil pointer dereference"
  | Some m =>
      let m' := ConsistentHash.Add m peersAddr in
      match peersAddr, clients s with
      | [], _ => Ok (mkServer (self s) (status s) (Some m') (clients s))
      | _ :: _, None => Panic "assignment to entry in nil map"
      | _ :: _, Some cl =>
          let cl' := fold_left
                       (fun cl a => <[a := NewClient (String.append "gocache/" a)]> cl)
                       peersAddr cl in
          Ok (mkServer (self s) (status s) (Some m') (Some cl'))
      end
  end.

(** [PickPeer]: the client ([None] for a nil [*Client]) and [ok]. A nil
    [clients] map reads as empty. *)
Definition PickPeer (s : Server) (key : string) : res (option Client * bool) :=
  match peers s with
  | None => Panic "invalid memory address or nil pointer dereference"
  | Some m =>
      let peerAddr := ConsistentHash.Get m key in
      if String.eqb peerAddr (self s) then Ok (None, false)
      else Ok (match clients s with Some cl => cl !! peerAddr | None => None end, true)
  end.

Definition Stop (s : Server) : Server :=
  if status s then mkServer (self s) false None None else s.

(** [s.Set(peersAddr...)], [s.PickPeer(key)] and [s.Stop()] with the lock:
    [SetPeers], [PickPeer] and [Stop] are what they do while holding it, and
    each releases it before returning. *)
Definition SetM (n : ServerMu) (peersAddr : list string) : res ServerMu :=
  lock n (fun s => let* s' := SetPeers s peersAddr in Ok (mkServerMu s' false)).

Definition PickPeerM (n : ServerMu) (key : string) : res (option Client * bool) :=
  lock n (fun s => PickPeer s key).

Definition StopM (n : ServerMu) : res ServerMu :=
  lock n (fun s => Ok (mkServerMu (Stop s) false)).

(** A server built by [NewServer] and a sequence of [Set] calls. *)
Fixpoint SetAll (s : Server) (calls : list (list string)) : res Server :=
  match calls with
  | [] => Ok s
  | c :: cs => let* s' := SetPeers s c in SetAll s' cs
  end.

End ServerModel.

(** ** Scenario S6: successive remote fetches of one key *)
Module S6.
Import GroupModel.
Section Scenario.
Context {LFUcache : Type} (lfu_add : LFUcache -> string -> ByteView -> res LFUcache)
  (etcdNew : option string).

(** [getFromPeer(peer, key)] called at each instant of [ts] in turn. *)
Fixpoint fetches (g : Group LFUcache) (mem : Mem) (peer : option PeerGetter)
  (key : string) (ts : list Z) : res (Group LFUcache * Mem) :=
  match ts with
  | [] => Ok (g, mem)
  | t :: ts' =>
      let* r := getFromPeer lfu_add etcdNew g mem peer key t in
      let '(g', mem', _) := r in
      fetches g' mem' peer key ts'
  end.

End Scenario.

(** The scenario's group uses the ["lru"] shells; the LFU shell is never
    built, so any LFU will do, and this one holds nothing. *)
Definition no_lfu_new (_ : Z) : unit := tt.
Definition no_lfu_add (c : unit) (_ : string) (_ : ByteView) : res unit := Ok c.
Definition no_lfu_get (c : unit) (_ : string) (_ : Z) : unit * option ByteView := (c, None).

(** A loader that knows no key, and a peer that answers ["v"]. *)
Definition loader : Getter := fun key => inl (String.append key " not exist").
Definition peer_v : PeerGetter := fun _ _ => inr (bytes "v").

(** [NewGroup("scores", 2<<10, "lru", loader)], as in [main.go]. *)
Definition scores : Group unit :=
  mkGroup "scores" loader (newCache no_lfu_new "lru" 2048)
    (newCache no_lfu_new "lru" 2048) None ∅.

(** A loader answering ["630"] for ["Tom"], as the database of [main.go]. *)
Definition db_loader : Getter :=
  fun key => if String.eqb key "Tom" then inr (bytes "630")
             else inl (String.append key " not exist").
Definition tom_group : Group unit :=
  mkGroup "scores" db_loader (newCache no_lfu_new "lru" 2048)
    (newCache no_lfu_new "lru" 2048) None ∅.

(** The scenario as the specification tells it: after eleven fetches of
    ["k"] at seconds 0 to 10, ["k"] has no statistics and the next
    [GetCacheData("k")] is served by the hot cache. *)
Definition spec_hot_promotion (etcdNew : option string) : Prop :=
  exists g mem,
    fetches no_lfu_add etcdNew scores (mkMem ∅ 0) (Some peer_v) "k"
      (map Z.of_nat (seq 0 11)) = Ok (g, mem) /\
    keys g !! "k" = None /\
    forall now, exists hc v,
      cache_get no_lfu_get (hotCache g) "k" now = Ok (hc, Some v) /\
      GetCacheData no_lfu_add no_lfu_get etcdNew g mem "k" now = Ok (set_hot g hc, mem, inr v).

End S6.

(** ** Configuration errors as the specification tells them: each one
    aborts the process. *)
Module S9.
Import GroupModel ServerModel.
End S9.

(** ** Invariants and scenarios used by the properties *)
Module LRUSpec.
Import LRU.
Section Spec.
Context {Value : Type} (Len : Value -> Z).
Local Open Scope Z_scope.
Abbreviation keys l := (map (@key Value) l).

(** I1 (map and list hold the same keys, each once) and I2 (the byte
    counter is the sum of the live entries' sizes). *)
Definition wf (c : LRUCache Value) : Prop :=
  curCapacity c = sum_bytes Len (ll c) /\
  (forall x, x ∈ cache c <-> x ∈ keys (ll c)) /\
  NoDup (keys (ll c)).

(** I3 *)
Definition within_bound (c : LRUCache Value) : Prop :=
  maxCapacity c <> 0 -> curCapacity c <= maxCapacity c.

End Spec.
End LRUSpec.

Module SingleFlightSpec.
Import SingleFlight.
Section Spec.
Context {R : Type}.

(** The invariant of the reachable states. *)
Record inv (s : state R) : Prop := {
  inv_m : forall c, m s = Some c <->
            exists i p, ths s !! i = Some p /\ is_leader p c;
  inv_one : forall i j pi pj ci cj, ths s !! i = Some pi -> ths s !! j = Some pj ->
            is_leader pi ci -> is_leader pj cj -> i = j;
  inv_run : forall i c, ths s !! i = Some (Run c) -> calls s !! c = Some None;
  inv_done : forall i c, ths s !! i = Some (Done c) ->
             exists r, calls s !! c = Some (Some r);
  inv_ret : forall i l c r, ths s !! i = Some (Ret l c r) -> calls s !! c = Some (Some r);
  inv_led : forall i j c r p, ths s !! i = Some (Ret true c r) -> ths s !! j = Some p ->
            ~ is_leader p c;
  inv_cnt : cnt s = nfilled (calls s)
}.

(** Progress: a record whose [fn] has not returned has its leader running
    [fn], and every waiter waits on an allocated record. *)
Record live (s : state R) : Prop := {
  live_run : forall c, calls s !! c = Some None -> exists j, ths s !! j = Some (Run c);
  live_wait : forall i c, ths s !! i = Some (Wait c) -> c < length (calls s)
}.

(** The steps a caller at a program point has left at most. *)
Definition weight (p : phase R) : nat :=
  match p with
  | Start => 3
  | Wait _ => 1
  | Run _ => 2
  | Done _ => 1
  | Ret _ _ _ => 0
  end.

Definition measure (s : state R) : nat := sum_list_with weight (ths s).

End Spec.

(** Claim C1 as stated: [N] concurrent callers of [Do(k, fn)], [fn]
    counting its invocations, end with [fn] run exactly once and all callers
    holding the same result. *)
Definition exactly_once_claim {R} (fn : nat -> R) (N : nat) : Prop :=
  forall s, reachable fn N s ->
  (forall i p, ths s !! i = Some p -> exists l c r, p = Ret l c r) ->
  cnt s = 1 /\
  (forall i j li lj ci cj ri rj, ths s !! i = Some (Ret li ci ri) ->
     ths s !! j = Some (Ret lj cj rj) -> ri = rj).

(** Two callers enter [Do] together; the second takes [g.mu] only after the
    first has deleted its record, so it installs a new record and runs [fn]
    again. *)
Definition sequential_trace_end : state nat :=
  mkState None [Some 1; Some 2] 2 [Ret true 0 1; Ret true 1 2].

End SingleFlightSpec.

Module CHashSpec.
Import ConsistentHash.

(** The hashes of the virtual nodes of [key]: [hash(strconv.Itoa(i) + key)]
    for [0 <= i < replicas]. *)
Definition replica_hashes (m : Map) (key : string) : list Z :=
  map (fun i => hash m (list_byte_of_string (String.append (itoa i) key)))
      (seq 0 (Z.to_nat (replicas m))).

(** Every virtual node of the ring is mapped, and only to nodes of [A]. *)
Definition covers (m : Map) (A : list string) : Prop :=
  (forall h, h ∈ ring m -> exists k, hashMap m !! h = Some k) /\
  (forall h k, hashMap m !! h = Some k -> k ∈ A).

End CHashSpec.

Module ServerSpec.
Import ServerModel ConsistentHash.

(** Servers built by [NewServer(self)] and [Set] calls: the ring and the
    client map are there, and the client map is empty while the ring is. *)
Definition srv_inv (self0 : string) (s : Server) : Prop :=
  self s = self0 /\
  exists m cl, peers s = Some m /\ replicas m = defaultReplicas /\
    clients s = Some cl /\ (cl = ∅ \/ ring m <> []).

(** What a server built by [NewServer(self0)] and [Set] calls with the
    addresses [A] holds. *)
Definition set_inv (self0 : string) (A : list string) (s : Server) : Prop :=
  self s = self0 /\
  exists m cl, peers s = Some m /\ clients s = Some cl /\ replicas m = defaultReplicas /\
    CHashSpec.covers m A /\
    (forall a, a ∈ A -> cl !! a = Some (NewClient (String.append "gocache/" a))) /\
    (A <> [] -> ring m <> []).

Definition remote_only : Server :=
  mkServer "x:1" false (Some (Add (New defaultReplicas None) ["y:2"])) (Some ∅).

End ServerSpec.

(* ================================================================== *)
(** * Properties *)

(** ** LRU engine *)
Module LRUFacts.
Import LRU.
Section Facts.
Context {Value : Type} (Len : Value -> Z).
Local Open Scope Z_scope.

Abbreviation keys l := (map (@key Value) l).
Local Abbreviation wf := (LRUSpec.wf Len).
Local Abbreviation within_bound := (@LRUSpec.within_bound Value).

Lemma find_node_some k (l : list (entry Value)) kv :
  find_node k l = Some kv ->
  key kv = k /\ sum_bytes Len l = entry_size Len kv + sum_bytes Len (remove_node k l).
Proof.
  induction l as [|e l IH]; simpl; [discriminate|].
  destruct (String.eqb_spec (key e) k) as [He|He].
  - intros [= <-]. split; [exact He|]. reflexivity.
  - intros Hf. destruct (IH Hf) as [Hk Hs]. split; [exact Hk|]. simpl. lia.
Qed.

Lemma find_node_none k (l : list (entry Value)) : find_node k l = None -> k ∉ keys l.
Proof.
  induction l as [|e l IH]; simpl; [intros _; apply not_elem_of_nil|].
  destruct (String.eqb_spec (key e) k) as [He|He]; [discriminate|].
  intros Hf Hin. apply elem_of_cons in Hin as [Hin|Hin]; [congruence|].
  exact (IH Hf Hin).
Qed.

Lemma remove_node_keys k (l : list (entry Value)) :
  NoDup (keys l) -> forall x, x ∈ keys (remove_node k l) <-> x ∈ keys l /\ x <> k.
Proof.
  induction l as [|e l IH]; simpl; intros Hnd x.
  - split; [intros H; apply not_elem_of_nil in H; contradiction|].
    intros [H _]; apply not_elem_of_nil in H; contradiction.
  - apply NoDup_cons in Hnd as [Hnin Hnd].
    destruct (String.eqb_spec (key e) k) as [He|He].
    + subst k. rewrite elem_of_cons. split.
      * intros Hx. split; [right; exact Hx|]. intros ->. contradiction.
      * intros [[->|Hx] Hne]; [congruence|exact Hx].
    + simpl. rewrite !elem_of_cons, IH by exact Hnd. split.
      * intros [->|[Hx Hne]]; [split; [left; reflexivity|congruence]|].
        split; [right; exact Hx|exact Hne].
      * intros [[->|Hx] Hne]; [left; reflexivity|right; split; assumption].
Qed.

Lemma remove_node_nodup k (l : list (entry Value)) : NoDup (keys l) -> NoDup (keys (remove_node k l)).
Proof.
  induction l as [|e l IH]; simpl; intros Hnd; [exact Hnd|].
  pose proof Hnd as Hnd0. apply NoDup_cons in Hnd as [Hnin Hnd].
  destruct (String.eqb_spec (key e) k); [exact Hnd|].
  simpl. apply NoDup_cons. split; [|exact (IH Hnd)].
  rewrite remove_node_keys by exact Hnd. intros [Hx _]. contradiction.
Qed.

Lemma find_node_elem k (l : list (entry Value)) : k ∈ keys l -> exists kv, find_node k l = Some kv.
Proof.
  intros Hk. destruct (find_node k l) as [kv|] eqn:Hf; [eauto|].
  exfalso. exact (find_node_none k l Hf Hk).
Qed.

Lemma remove_node_length k (l : list (entry Value)) kv :
  find_node k l = Some kv -> length (remove_node k l) = pred (length l).
Proof.
  induction l as [|e l IH]; simpl; [discriminate|].
  destruct (String.eqb_spec (key e) k); [reflexivity|].
  intros Hf. cbn [length]. rewrite (IH Hf). destruct l as [|e0 l]; [discriminate|reflexivity].
Qed.

(** Removing the back node of a list without duplicate keys. *)
Lemma remove_node_snoc (l : list (entry Value)) x :
  key x ∉ keys l -> remove_node (key x) (l ++ [x]) = l.
Proof.
  induction l as [|e l IH]; simpl; intros Hn.
  - rewrite String.eqb_refl. reflexivity.
  - rewrite elem_of_cons in Hn.
    destruct (String.eqb_spec (key e) (key x)) as [He|He].
    + exfalso. apply Hn. left. symmetry. exact He.
    + f_equal. apply IH. intros H. apply Hn. right. exact H.
Qed.

Lemma find_node_snoc (l : list (entry Value)) x :
  key x ∉ keys l -> find_node (key x) (l ++ [x]) = Some x.
Proof.
  induction l as [|e l IH]; simpl; intros Hn.
  - rewrite String.eqb_refl. reflexivity.
  - rewrite elem_of_cons in Hn.
    destruct (String.eqb_spec (key e) (key x)) as [He|He].
    + exfalso. apply Hn. left. symmetry. exact He.
    + apply IH. intros H. apply Hn. right. exact H.
Qed.

Lemma lookup_node_some (c : LRUCache Value) k kv :
  lookup_node c k = Some kv -> find_node k (ll c) = Some kv.
Proof. unfold lookup_node. case_decide; [auto|discriminate]. Qed.

Lemma lookup_node_none (c : LRUCache Value) k :
  wf c -> lookup_node c k = None -> k ∉ keys (ll c).
Proof.
  intros (_ & Hc & _). unfold lookup_node. case_decide as Hin.
  - intros Hf. exact (find_node_none k _ Hf).
  - intros _ Hk. apply Hin, Hc, Hk.
Qed.

Lemma removeElement_wf (c : LRUCache Value) kv :
  wf c -> find_node (key kv) (ll c) = Some kv -> wf (removeElement Len c kv).
Proof.
  intros (Hs & Hc & Hnd) Hf. destruct (find_node_some _ _ _ Hf) as [_ Hsum].
  unfold removeElement, wf; simpl. split; [lia|]. split.
  - intros x. rewrite elem_of_difference, elem_of_singleton, Hc.
    rewrite remove_node_keys by exact Hnd. tauto.
  - apply remove_node_nodup, Hnd.
Qed.

Lemma RemoveOldest_wf c : wf c -> wf (RemoveOldest Len c).
Proof.
  intros Hwf. unfold RemoveOldest. destruct (last (ll c)) as [kv|] eqn:Hl; [|exact Hwf].
  apply removeElement_wf; [exact Hwf|].
  apply last_Some in Hl as [l' Hl']. destruct Hwf as (_ & _ & Hnd).
  rewrite Hl' in *. rewrite map_app in Hnd. apply NoDup_app in Hnd as (_ & Hd & _).
  apply find_node_snoc. intros Hin. apply (Hd _ Hin). simpl. apply list_elem_of_singleton. reflexivity.
Qed.

Lemma find_node_some_elem k (l : list (entry Value)) kv :
  find_node k l = Some kv -> k ∈ keys l.
Proof.
  intros Hf. destruct (find_node_some _ _ _ Hf) as [Hk _]. revert Hf.
  induction l as [|e l IH]; simpl; [discriminate|].
  rewrite elem_of_cons.
  destruct (String.eqb_spec (key e) k) as [He|He]; [intros _; left; congruence|].
  intros Hf. right. exact (IH Hf).
Qed.

Lemma RemoveOldest_snoc (c : LRUCache Value) l' kv :
  wf c -> ll c = l' ++ [kv] ->
  ll (RemoveOldest Len c) = l' /\ maxCapacity (RemoveOldest Len c) = maxCapacity c.
Proof.
  intros (_ & _ & Hnd) Hl. unfold RemoveOldest. rewrite Hl, last_snoc. simpl.
  split; [|reflexivity].
  rewrite Hl, map_app in Hnd. apply NoDup_app in Hnd as (_ & Hd & _).
  rewrite Hl. apply remove_node_snoc. intros Hin. apply (Hd _ Hin). simpl.
  apply list_elem_of_singleton. reflexivity.
Qed.

Lemma evict_spec fuel (c : LRUCache Value) :
  wf c -> 0 <= maxCapacity c -> (length (ll c) < fuel)%nat ->
  exists c', evict Len fuel c = Some c' /\ wf c' /\ within_bound c' /\
    maxCapacity c' = maxCapacity c /\ exists s, ll c = ll c' ++ s.
Proof.
  revert c. induction fuel as [|f IH]; intros c Hwf Hm Hlen; [lia|].
  simpl. destruct (negb (maxCapacity c =? 0) && (maxCapacity c <? curCapacity c))
    eqn:Hcond.
  - apply andb_prop in Hcond as [Hne Hlt].
    apply negb_true_iff, Z.eqb_neq in Hne. apply Z.ltb_lt in Hlt.
    destruct (last (ll c)) as [kv|] eqn:Hl.
    + apply last_Some in Hl as [l' Hl'].
      destruct (RemoveOldest_snoc c l' kv Hwf Hl') as [Hll Hmc].
      destruct (IH (RemoveOldest Len c)) as (c' & He & Hw' & Hb & Hm' & s & Hs).
      * apply RemoveOldest_wf, Hwf.
      * lia.
      * rewrite Hll. rewrite Hl', length_app in Hlen. simpl in Hlen. lia.
      * exists c'. split; [exact He|]. split; [exact Hw'|]. split; [exact Hb|].
        split; [lia|]. exists (s ++ [kv]). rewrite Hl', <- Hll, Hs, app_assoc.
        reflexivity.
    + apply last_None in Hl. destruct Hwf as (Hs & _ & _).
      rewrite Hl in Hs. simpl in Hs. lia.
  - exists c. split; [reflexivity|]. split; [exact Hwf|]. split.
    + intros Hne. apply andb_false_iff in Hcond as [H|H].
      * apply negb_false_iff, Z.eqb_eq in H. contradiction.
      * apply Z.ltb_ge in H. exact H.
    + split; [reflexivity|]. exists []. rewrite app_nil_r. reflexivity.
Qed.

Lemma Add_spec (c : LRUCache Value) k v e :
  wf c -> 0 <= maxCapacity c ->
  exists c', Add Len c k v e = Some c' /\ wf c' /\ within_bound c' /\
    maxCapacity c' = maxCapacity c /\
    exists rest s, mkEntry k v e :: rest = ll c' ++ s.
Proof.
  intros Hwf Hm. unfold Add.
  destruct (lookup_node c k) as [kv|] eqn:Hlk.
  - apply lookup_node_some in Hlk.
    destruct (find_node_some _ _ _ Hlk) as [Hk Hsum].
    pose proof (find_node_some_elem _ _ _ Hlk) as Hkin.
    destruct Hwf as (Hs & Hc & Hnd).
    match goal with |- context [evict _ ?f ?c1] =>
      destruct (evict_spec f c1) as (c' & He & Hw' & Hb & Hm' & s & Hsfx) end.
    + split; [|split].
      * simpl. unfold entry_size in *. simpl. rewrite Hs, Hsum, Hk. lia.
      * intros x. simpl. rewrite Hc, elem_of_cons, remove_node_keys by exact Hnd.
        destruct (decide (x = k)); [subst; tauto|tauto].
      * simpl. apply NoDup_cons. split.
        -- rewrite remove_node_keys by exact Hnd. tauto.
        -- apply remove_node_nodup, Hnd.
    + exact Hm.
    + constructor.
    + exists c'. simpl in Hm'. do 4 (split; [eassumption|]).
      exists (remove_node k (ll c)), s. exact Hsfx.
  - pose proof (lookup_node_none c k Hwf Hlk) as Hkn.
    destruct Hwf as (Hs & Hc & Hnd).
    match goal with |- context [evict _ ?f ?c1] =>
      destruct (evict_spec f c1) as (c' & He & Hw' & Hb & Hm' & s & Hsfx) end.
    + split; [|split].
      * simpl. unfold entry_size. simpl. lia.
      * intros x. simpl. rewrite elem_of_union, elem_of_singleton, Hc, elem_of_cons.
        tauto.
      * simpl. apply NoDup_cons. split; [exact Hkn|exact Hnd].
    + exact Hm.
    + constructor.
    + exists c'. simpl in Hm'. do 4 (split; [eassumption|]).
      exists (ll c), s. exact Hsfx.
Qed.

Lemma entry_size_nonneg (Len_nonneg : forall v, 0 <= Len v) kv :
  0 <= entry_size Len kv.
Proof. unfold entry_size. pose proof (Len_nonneg (value kv)). lia. Qed.

Lemma Get_spec (c : LRUCache Value) k now :
  wf c ->
  wf (fst (Get Len c k now)) /\
  maxCapacity (fst (Get Len c k now)) = maxCapacity c /\
  (curCapacity (fst (Get Len c k now)) = curCapacity c \/
   exists kv, curCapacity (fst (Get Len c k now)) = curCapacity c - entry_size Len kv).
Proof.
  intros Hwf. unfold Get. destruct (lookup_node c k) as [kv|] eqn:Hlk.
  2:{ simpl. split; [exact Hwf|]. split; [reflexivity|left; reflexivity]. }
  apply lookup_node_some in Hlk.
  destruct (find_node_some _ _ _ Hlk) as [Hk Hsum].
  destruct (negb (isZero (expire kv)) && before (expire kv) now); simpl.
  - split; [|split; [reflexivity|right; exists kv; reflexivity]].
    apply removeElement_wf; [exact Hwf|]. rewrite Hk. exact Hlk.
  - split; [|split; [reflexivity|left; reflexivity]].
    destruct Hwf as (Hs & Hc & Hnd).
    pose proof (find_node_some_elem _ _ _ Hlk) as Hkin.
    split; [|split].
    + simpl. unfold entry_size in *. rewrite Hs, Hsum. lia.
    + intros x. simpl. rewrite Hc, elem_of_cons, remove_node_keys, Hk by exact Hnd.
      destruct (decide (x = k)); [subst; tauto|tauto].
    + simpl. apply NoDup_cons. rewrite Hk. split.
      * rewrite remove_node_keys by exact Hnd. tauto.
      * apply remove_node_nodup, Hnd.
Qed.

Lemma RemoveOldest_bound (Len_nonneg : forall v, 0 <= Len v) (c : LRUCache Value) :
  wf c ->
  curCapacity (RemoveOldest Len c) <= curCapacity c /\
  maxCapacity (RemoveOldest Len c) = maxCapacity c.
Proof.
  intros _. unfold RemoveOldest. destruct (last (ll c)) as [kv|]; [|lia].
  simpl. pose proof (entry_size_nonneg Len_nonneg kv). lia.
Qed.

Lemma New_wf m : wf (New m).
Proof.
  split; [reflexivity|]. split; [|constructor].
  intros x. simpl. split; intros H; [apply elem_of_empty in H|apply not_elem_of_nil in H];
    contradiction.
Qed.

Lemma run_wf ops (c c' : LRUCache Value) :
  wf c -> 0 <= maxCapacity c -> run Len c ops = Some c' ->
  wf c' /\ maxCapacity c' = maxCapacity c.
Proof.
  revert c. induction ops as [|o ops IH]; intros c Hwf Hm Hrun; simpl in Hrun.
  - injection Hrun as <-. split; [exact Hwf|reflexivity].
  - destruct o as [k v e|k now|]; simpl in Hrun.
    + destruct (Add_spec c k v e Hwf Hm) as (c1 & Hadd & Hw1 & _ & Hm1 & _).
      rewrite Hadd in Hrun. destruct (IH c1 Hw1 ltac:(lia) Hrun) as [Hw' Hm'].
      split; [exact Hw'|lia].
    + destruct (Get_spec c k now Hwf) as (Hw1 & Hm1 & _).
      destruct (IH _ Hw1 ltac:(lia) Hrun) as [Hw' Hm']. split; [exact Hw'|lia].
    + pose proof (RemoveOldest_wf c Hwf) as Hw1.
      assert (Hm1 : maxCapacity (RemoveOldest Len c) = maxCapacity c)
        by (unfold RemoveOldest; destruct (last (ll c)); reflexivity).
      destruct (IH _ Hw1 ltac:(lia) Hrun) as [Hw' Hm']. split; [exact Hw'|lia].
Qed.

Lemma run_spec (Len_nonneg : forall v, 0 <= Len v) ops (c : LRUCache Value) :
  wf c -> 0 <= maxCapacity c -> within_bound c ->
  exists c', run Len c ops = Some c' /\ wf c' /\ within_bound c' /\
    maxCapacity c' = maxCapacity c.
Proof.
  revert c. induction ops as [|o ops IH]; intros c Hwf Hm Hb; simpl.
  - exists c. auto.
  - unfold within_bound in *.
    destruct o as [k v e|k now|]; simpl.
    + destruct (Add_spec c k v e Hwf Hm) as (c1 & Hadd & Hw1 & Hb1 & Hm1 & _).
      rewrite Hadd. destruct (IH c1 Hw1 ltac:(lia) Hb1) as (c' & Hr & Hw' & Hb' & Hm').
      exists c'. split; [exact Hr|]. split; [exact Hw'|]. split; [exact Hb'|lia].
    + destruct (Get_spec c k now Hwf) as (Hw1 & Hm1 & Hcur).
      destruct (IH (fst (Get Len c k now)) Hw1 ltac:(lia)) as (c' & Hr & Hw' & Hb' & Hm').
      * intros Hne. destruct Hcur as [Hcur|[kv Hcur]].
        -- rewrite Hcur, Hm1. apply Hb. lia.
        -- pose proof (entry_size_nonneg Len_nonneg kv). rewrite Hcur.
           specialize (Hb ltac:(lia)). lia.
      * exists c'. split; [exact Hr|]. split; [exact Hw'|]. split; [exact Hb'|lia].
    + pose proof (RemoveOldest_wf c Hwf) as Hw1.
      destruct (RemoveOldest_bound Len_nonneg c Hwf) as [Hc1 Hm1].
      destruct (IH _ Hw1 ltac:(lia)) as (c' & Hr & Hw' & Hb' & Hm').
      * intros Hne. specialize (Hb ltac:(lia)). lia.
      * exists c'. split; [exact Hr|]. split; [exact Hw'|]. split; [exact Hb'|lia].
Qed.

(** Claim C2. For an LRU engine built by [New maxBytes] with [maxBytes >= 0]
    and values whose [Len] is nonnegative, every finite sequence of
    [Add]/[Get]/[RemoveOldest] runs to completion; afterwards the byte
    counter equals the sum of [len(key) + value.Len()] over the live entries,
    and when [maxBytes > 0] it is at most [maxBytes] ([maxBytes = 0]: no
    bound). *)
Theorem lru_byte_counter_invariant (Len_nonneg : forall v, 0 <= Len v)
  (maxBytes : Z) (ops : list (op Value)) (Hmax : 0 <= maxBytes) :
  exists c', run Len (New maxBytes) ops = Some c' /\
    curCapacity c' = sum_bytes Len (ll c') /\
    (0 < maxBytes -> curCapacity c' <= maxBytes).
Proof.
  destruct (run_spec Len_nonneg ops (New maxBytes) (New_wf maxBytes) Hmax)
    as (c' & Hr & (Hs & _ & _) & Hb & Hm).
  - intros _. simpl. exact Hmax.
  - exists c'. split; [exact Hr|]. split; [exact Hs|].
    intros Hpos. simpl in Hm. rewrite <- Hm. apply Hb. lia.
Qed.

Lemma front_entry (c' : LRUCache Value) k v e rest s :
  wf c' -> mkEntry k v e :: rest = ll c' ++ s -> k ∈ keys (ll c') ->
  lookup_node c' k = Some (mkEntry k v e).
Proof.
  intros (_ & Hc & _) Hpre Hin. unfold lookup_node.
  rewrite decide_True by (apply Hc; exact Hin).
  destruct (ll c') as [|e0 l0] eqn:Hl.
  - simpl in Hin. apply not_elem_of_nil in Hin. contradiction.
  - simpl in Hpre. injection Hpre as <- _. simpl. rewrite String.eqb_refl.
    reflexivity.
Qed.

(** Claim C4. On an engine reached from [New m] ([m >= 0]) by public
    operations, after [Add(k, v, e)]: if [k] was not evicted and [e] lies in
    the future of the clock reading [now], [Get(k)] returns [(v, true)]; if
    [e] is a nonzero instant before [now], [Get(k)] misses, [k] is no longer
    in the engine, a second [Get(k)] still misses and changes nothing, and the
    byte counter is the sum over the remaining entries. *)
Theorem lru_get_after_add (m : Z) (ops : list (op Value)) (c c' : LRUCache Value)
  k v e now :
  0 <= m -> run Len (New m) ops = Some c -> Add Len c k v e = Some c' ->
  (k ∈ keys (ll c') -> now < e -> snd (Get Len c' k now) = Some v) /\
  (e <> 0 -> e < now ->
     snd (Get Len c' k now) = None /\
     (k ∉ keys (ll (fst (Get Len c' k now)))) /\
     (forall now', Get Len (fst (Get Len c' k now)) k now' =
                   (fst (Get Len c' k now), None)) /\
     curCapacity (fst (Get Len c' k now)) = sum_bytes Len (ll (fst (Get Len c' k now)))).
Proof.
  intros Hm Hrun Hadd.
  destruct (run_wf ops (New m) c (New_wf m) Hm Hrun) as [Hwf Hmc]. simpl in Hmc.
  destruct (Add_spec c k v e Hwf ltac:(lia)) as (c1 & Hadd1 & Hw' & _ & _ & rest & s & Hpre).
  rewrite Hadd in Hadd1. injection Hadd1 as <-.
  split.
  - intros Hin Hnow. unfold Get. rewrite (front_entry c' k v e rest s Hw' Hpre Hin).
    simpl. unfold before. replace (e <? now) with false by (symmetry; apply Z.ltb_ge; lia).
    rewrite andb_false_r. reflexivity.
  - intros Hne Hpast.
    assert (Hmiss : (k ∉ keys (ll (fst (Get Len c' k now))))
                    /\ snd (Get Len c' k now) = None).
    { unfold Get. destruct (decide (k ∈ keys (ll c'))) as [Hin|Hnin].
      - rewrite (front_entry c' k v e rest s Hw' Hpre Hin). simpl.
        unfold isZero, before. replace (e =? 0) with false by (symmetry; apply Z.eqb_neq; exact Hne).
        replace (e <? now) with true by (symmetry; apply Z.ltb_lt; exact Hpast).
        simpl. split; [|reflexivity]. destruct Hw' as (_ & _ & Hnd).
        rewrite remove_node_keys by exact Hnd. intros [_ H]. apply H. reflexivity.
      - destruct (lookup_node c' k) as [kv|] eqn:Hlk.
        + exfalso. apply Hnin. apply lookup_node_some in Hlk.
          exact (find_node_some_elem _ _ _ Hlk).
        + simpl. split; [exact Hnin|reflexivity]. }
    destruct Hmiss as [Hnin Hnone].
    destruct (Get_spec c' k now Hw') as (Hw2 & _ & _).
    split; [exact Hnone|]. split; [exact Hnin|]. split.
    + intros now'. unfold Get at 1.
      destruct (lookup_node (fst (Get Len c' k now)) k) as [kv|] eqn:Hlk; [|reflexivity].
      exfalso. apply lookup_node_some in Hlk. apply Hnin.
      exact (find_node_some_elem _ _ _ Hlk).
    + destruct Hw2 as (Hs2 & _ & _). exact Hs2.
Qed.

End Facts.

Lemma lru_byte_counter_invariant_witness :
  exists c', run blen (New 10)
      [OpAdd "a" (bytes "1") 0; OpAdd "b" (bytes "22") 0; OpAdd "c" (bytes "333") 0;
       OpGet "a" 0; OpAdd "d" (bytes "4444") 0; OpRemoveOldest] = Some c' /\
    curCapacity c' = sum_bytes blen (ll c') /\
    (0 < 10 -> curCapacity c' <= 10)%Z.
Proof.
  apply (lru_byte_counter_invariant blen).
  - intros v. unfold blen. lia.
  - lia.
Defined.

Lemma lru_get_after_add_witness :
  snd (Get blen (default (New 10) (Add blen (New 10) "k" (bytes "v") 5)) "k" 1) =
    Some (bytes "v") /\
  snd (Get blen (default (New 10) (Add blen (New 10) "k" (bytes "v") 5)) "k" 9) = None.
Proof.
  split.
  - refine (proj1 (lru_get_after_add blen 10 [] (New 10)
                     (default (New 10) (Add blen (New 10) "k" (bytes "v") 5))
                     "k" (bytes "v") 5 1 _ _ _) _ _).
    + lia.
    + reflexivity.
    + vm_compute. reflexivity.
    + vm_compute. left.
    + lia.
  - refine (proj1 (proj2 (lru_get_after_add blen 10 [] (New 10)
                     (default (New 10) (Add blen (New 10) "k" (bytes "v") 5))
                     "k" (bytes "v") 5 9 _ _ _) _ _)).
    + lia.
    + reflexivity.
    + vm_compute. reflexivity.
    + lia.
    + lia.
Defined.

End LRUFacts.

(** ** Consistent-hash ring *)
Module CHashFacts.
Import ConsistentHash.

Lemma div2_between i j : (i < j)%nat -> (i <= Nat.div2 (i + j) < j)%nat.
Proof.
  intros Hij. pose proof (Nat.div2_odd (i + j)) as Hd.
  destruct (Nat.odd (i + j)); simpl in Hd; lia.
Qed.

(** [sort.Search] finds the first index of [0, n) where a predicate that
    stays true once it is true holds, or [n]. *)
Lemma search_loop_spec (N : nat) (f : nat -> bool) :
  (forall a b, (a <= b < N)%nat -> f a = true -> f b = true) ->
  forall fuel i j, (j <= N)%nat -> (i <= j)%nat -> (j - i <= fuel)%nat ->
  let r := search_loop fuel f i j in
  (i <= r <= j)%nat /\ (forall l, (i <= l < r)%nat -> f l = false) /\
  ((r < j)%nat -> f r = true).
Proof.
  intros Hmono fuel. induction fuel as [|fuel IH]; intros i j HjN Hij Hfuel; simpl.
  - assert (i = j) by lia. subst j. split; [lia|]. split; [intros; lia|intros; lia].
  - destruct (Nat.ltb_spec i j) as [Hlt|Hge]; [|split; [lia|split; intros; lia]].
    pose proof (div2_between i j Hlt) as Hh.
    destruct (f (Nat.div2 (i + j))) eqn:Hf; simpl.
    + destruct (IH i (Nat.div2 (i + j)) ltac:(lia) ltac:(lia) ltac:(lia))
        as (Hr & Hbelow & Hat).
      split; [lia|]. split; [exact Hbelow|].
      intros Hrj. destruct (Nat.eq_dec (search_loop fuel f i (Nat.div2 (i + j)))
                                       (Nat.div2 (i + j))) as [Heq|Hne].
      * rewrite Heq. exact Hf.
      * apply Hat. lia.
    + destruct (IH (S (Nat.div2 (i + j))) j HjN ltac:(lia) ltac:(lia))
        as (Hr & Hbelow & Hat).
      split; [lia|]. split; [|exact Hat].
      intros l Hl. destruct (Nat.le_gt_cases l (Nat.div2 (i + j))) as [Hle|Hgt].
      * destruct (f l) eqn:Hfl; [|reflexivity].
        rewrite (Hmono l (Nat.div2 (i + j)) ltac:(lia) Hfl) in Hf. discriminate.
      * apply Hbelow. lia.
Qed.

Lemma StronglySorted_nth (l : list Z) a b :
  StronglySorted Z.le l -> (a <= b < length l)%nat -> (nth a l 0 <= nth b l 0)%Z.
Proof.
  revert a b. induction l as [|x l IH]; intros a b Hs Hab; simpl in *; [lia|].
  apply StronglySorted_inv in Hs as [Hs Hall].
  destruct a as [|a], b as [|b].
  - lia.
  - rewrite Forall_forall in Hall. apply Hall. apply list_elem_of_In, nth_In. lia.
  - lia.
  - apply IH; [exact Hs|lia].
Qed.

Lemma ring_sorted_New r fn : StronglySorted Z.le (ring (New r fn)).
Proof. constructor. Qed.

Lemma ring_sorted_Add m ks : StronglySorted Z.le (ring (Add m ks)).
Proof.
  simpl. apply StronglySorted_merge_sort.
  - intros x y z Hxy Hyz. lia.
  - intros x y. lia.
Qed.

Lemma ring_sorted_adds r fn (batches : list (list string)) :
  StronglySorted Z.le (ring (fold_left Add batches (New r fn))).
Proof.
  assert (Hgen : forall m, StronglySorted Z.le (ring m) ->
                 StronglySorted Z.le (ring (fold_left Add batches m))).
  { induction batches as [|ks bs IH]; intros m Hm; simpl; [exact Hm|].
    apply IH, ring_sorted_Add. }
  apply Hgen, ring_sorted_New.
Qed.

(** [Get] on a sorted, nonempty ring: the index found is the first whose
    hash is at least the key's hash, or the length of the ring. *)
Lemma Get_sorted_index m key :
  StronglySorted Z.le (ring m) -> ring m <> [] ->
  let h := hash m (list_byte_of_string key) in
  exists r, (r <= length (ring m))%nat /\
    (forall l, (l < r)%nat -> (nth l (ring m) 0 < h)%Z) /\
    ((r < length (ring m))%nat -> (h <= nth r (ring m) 0)%Z) /\
    Get m key = default "" (hashMap m !! nth (r mod length (ring m)) (ring m) 0%Z).
Proof.
  intros Hs Hne h. unfold Get.
  set (f := fun i => bool_decide (h <= nth i (ring m) 0)%Z).
  assert (Hmono : forall a b, (a <= b < length (ring m))%nat -> f a = true -> f b = true).
  { intros a b Hab. unfold f. rewrite !bool_decide_eq_true.
    pose proof (StronglySorted_nth _ a b Hs Hab). lia. }
  destruct (search_loop_spec (length (ring m)) f Hmono (length (ring m)) 0
              (length (ring m)) ltac:(lia) ltac:(lia) ltac:(lia)) as (Hr & Hb & Ha).
  exists (Search (length (ring m)) f). split; [unfold Search; lia|]. split.
  - intros l Hl. specialize (Hb l ltac:(unfold Search in Hl; lia)).
    unfold f in Hb. apply bool_decide_eq_false in Hb. lia.
  - split.
    + intros Hl. specialize (Ha Hl). unfold f in Ha. apply bool_decide_eq_true in Ha. exact Ha.
    + destruct (ring m) as [|z l] eqn:Hring; [contradiction|]. reflexivity.
Qed.

Lemma elem_nth (l : list Z) x : x ∈ l -> exists k, (k < length l)%nat /\ nth k l 0%Z = x.
Proof. intros Hx. apply list_elem_of_In in Hx. exact (In_nth l x 0%Z Hx). Qed.

(** Claim C5. For every ring built by [New] and any sequence of [Add]s:
    [Get] on an empty ring is [""]; otherwise it returns the real node of the
    smallest virtual-node hash that is at least [hash(key)], and of the first
    ring entry when every virtual-node hash is below [hash(key)]. With the
    identity hash and [replicas = 1], adding ["6"; "4"; "2"] gives the ring
    [[2; 4; 6]] and [Get] maps "3", "5", "7" to "4", "6", "2". *)
Theorem chash_get_smallest_ge (r : Z) fn (batches : list (list string)) key :
  let m := fold_left Add batches (New r fn) in
  let h := hash m (list_byte_of_string key) in
  (ring m = [] -> Get m key = "") /\
  (forall x, x ∈ ring m -> (h <= x)%Z ->
     (forall y, y ∈ ring m -> (h <= y)%Z -> (x <= y)%Z) ->
     Get m key = default "" (hashMap m !! x)) /\
  (forall x0, head (ring m) = Some x0 -> (forall y, y ∈ ring m -> (y < h)%Z) ->
     Get m key = default "" (hashMap m !! x0)) /\
  (ring S4.m = [2; 4; 6]%Z /\ Get S4.m "3" = "4" /\ Get S4.m "5" = "6" /\
   Get S4.m "7" = "2").
Proof.
  intros m h. pose proof (ring_sorted_adds r fn batches) as Hs. fold m in Hs.
  split; [|split; [|split]].
  - intros Hnil. unfold Get. rewrite Hnil. reflexivity.
  - intros x Hx Hhx Hmin.
    assert (Hne : ring m <> []) by (intros Hn; rewrite Hn in Hx; apply not_elem_of_nil in Hx; exact Hx).
    destruct (Get_sorted_index m key Hs Hne) as (ri & Hri & Hbelow & Hat & Hget).
    fold h in Hbelow, Hat. rewrite Hget.
    destruct (elem_nth _ _ Hx) as (k & Hk & Hkx).
    destruct (Nat.lt_ge_cases ri (length (ring m))) as [Hlt|Hge].
    + specialize (Hat Hlt).
      assert (Hin : nth ri (ring m) 0%Z ∈ ring m) by (apply list_elem_of_In, nth_In; exact Hlt).
      specialize (Hmin _ Hin Hat).
      assert (Hkr : (ri <= k)%nat).
      { destruct (Nat.le_gt_cases ri k) as [H|H]; [exact H|].
        specialize (Hbelow k H). lia. }
      pose proof (StronglySorted_nth _ ri k Hs ltac:(lia)) as Hle.
      rewrite Nat.mod_small by exact Hlt. do 3 f_equal. lia.
    + specialize (Hbelow k ltac:(lia)). lia.
  - intros x0 Hhd Hall.
    assert (Hne : ring m <> []) by (intros Hn; rewrite Hn in Hhd; discriminate).
    destruct (Get_sorted_index m key Hs Hne) as (ri & Hri & Hbelow & Hat & Hget).
    fold h in Hbelow, Hat. rewrite Hget.
    destruct (Nat.lt_ge_cases ri (length (ring m))) as [Hlt|Hge].
    + exfalso. specialize (Hat Hlt).
      assert (Hin : nth ri (ring m) 0%Z ∈ ring m) by (apply list_elem_of_In, nth_In; exact Hlt).
      specialize (Hall _ Hin). lia.
    + assert (ri = length (ring m)) as -> by lia. rewrite Nat.Div0.mod_same.
      destruct (ring m) as [|z l]; [discriminate|]. simpl in Hhd. injection Hhd as ->.
      reflexivity.
  - vm_compute. repeat split.
Qed.

Lemma chash_get_smallest_ge_witness :
  Get (fold_left Add [] (New 50 None)) "k" = "" /\
  Get (fold_left Add [["6"; "4"; "2"]] (New 1 (Some identity_hash))) "7" =
    default "" (hashMap (fold_left Add [["6"; "4"; "2"]] (New 1 (Some identity_hash))) !! 2%Z).
Proof.
  split.
  - apply (proj1 (chash_get_smallest_ge 50 None [] "k")). reflexivity.
  - apply (proj1 (proj2 (proj2 (chash_get_smallest_ge 1 (Some identity_hash) [["6"; "4"; "2"]] "7")))).
    + reflexivity.
    + intros y Hy.
      replace (ring _) with [2; 4; 6]%Z in Hy by (vm_compute; reflexivity).
      repeat (apply elem_of_cons in Hy as [->|Hy]; [vm_compute; reflexivity|]).
      by apply not_elem_of_nil in Hy.
Defined.

End CHashFacts.

(** ** Single-flight coalescer *)
Module SFFacts.
Import SingleFlight SingleFlightSpec.

Lemma ins_Some {A} (l : list A) i x j y :
  <[i := x]> l !! j = Some y -> (i = j /\ x = y) \/ (i <> j /\ l !! j = Some y).
Proof. rewrite list_lookup_insert_Some. intros [(? & ? & ?)|?]; [left|right]; tauto. Qed.

Lemma ins_self {A} (l : list A) i x y : l !! i = Some y -> <[i := x]> l !! i = Some x.
Proof. intros H. apply list_lookup_insert_eq. exact (lookup_lt_Some _ _ _ H). Qed.

Ltac not_leader := let H := fresh in intros H; destruct H as [H|H]; discriminate.

Section Facts.
Context {R : Type} (fn : nat -> R).

Lemma nfilled_snoc_none (l : list (option R)) : nfilled (l ++ [None]) = nfilled l.
Proof. induction l as [|[x|] l IH]; simpl; [reflexivity|f_equal; exact IH|exact IH]. Qed.

Lemma nfilled_fill (l : list (option R)) c r :
  l !! c = Some None -> nfilled (<[c := Some r]> l) = S (nfilled l).
Proof.
  revert c. induction l as [|x l IH]; intros c Hc; [discriminate|].
  destruct c as [|c]; simpl in *.
  - injection Hc as ->. reflexivity.
  - destruct x; simpl; [f_equal|]; apply IH; exact Hc.
Qed.

Lemma inv_init N : inv (R:=R) (init N).
Proof.
  constructor; simpl.
  - intros c. split; [discriminate|]. intros (i & p & Hi & Hl).
    apply lookup_replicate in Hi as [-> _]. revert Hl. not_leader.
  - intros i j pi pj ci cj Hi _ Hl _.
    apply lookup_replicate in Hi as [-> _]. revert Hl. not_leader.
  - intros i c Hi. apply lookup_replicate in Hi as [Hi _]. discriminate.
  - intros i c Hi. apply lookup_replicate in Hi as [Hi _]. discriminate.
  - intros i l c r Hi. apply lookup_replicate in Hi as [Hi _]. discriminate.
  - intros i j c r p Hi. apply lookup_replicate in Hi as [Hi _]. discriminate.
  - reflexivity.
Qed.

(** A thread that is neither a leader before nor after its step leaves
    the leaders unchanged. *)
Lemma leader_frame (s : state R) i x y j p c :
  ths s !! i = Some y -> ~ is_leader x c ->
  <[i := x]> (ths s) !! j = Some p -> is_leader p c -> i <> j /\ ths s !! j = Some p.
Proof.
  intros _ Hx Hj Hl. apply ins_Some in Hj as [[-> ->]|Hj]; [contradiction|exact Hj].
Qed.

Lemma step_join_inv (s : state R) i c :
  inv s -> ths s !! i = Some Start -> m s = Some c ->
  inv (mkState (m s) (calls s) (cnt s) (<[i := Wait c]> (ths s))).
Proof.
  intros Hv Hi Hm. constructor; simpl.
  - intros c'. rewrite (inv_m _ Hv c'). split.
    + intros (j & p & Hj & Hl). exists j, p. split; [|exact Hl].
      rewrite list_lookup_insert_ne; [exact Hj|]. intros ->. rewrite Hi in Hj.
      injection Hj as <-. revert Hl. not_leader.
    + intros (j & p & Hj & Hl).
      destruct (leader_frame s i (Wait c) Start j p c' Hi ltac:(not_leader) Hj Hl) as [_ Hj'].
      eauto.
  - intros j k pj pk cj ck Hj Hk Hlj Hlk.
    destruct (leader_frame s i (Wait c) Start j pj cj Hi ltac:(not_leader) Hj Hlj) as [_ Hj'].
    destruct (leader_frame s i (Wait c) Start k pk ck Hi ltac:(not_leader) Hk Hlk) as [_ Hk'].
    exact (inv_one _ Hv _ _ _ _ _ _ Hj' Hk' Hlj Hlk).
  - intros j c' Hj. apply ins_Some in Hj as [[_ He]|[_ Hj]]; [discriminate|].
    exact (inv_run _ Hv _ _ Hj).
  - intros j c' Hj. apply ins_Some in Hj as [[_ He]|[_ Hj]]; [discriminate|].
    exact (inv_done _ Hv _ _ Hj).
  - intros j l c' r Hj. apply ins_Some in Hj as [[_ He]|[_ Hj]]; [discriminate|].
    exact (inv_ret _ Hv _ _ _ _ Hj).
  - intros j k c' r p Hj Hk Hl. apply ins_Some in Hj as [[_ He]|[_ Hj]]; [discriminate|].
    destruct (leader_frame s i (Wait c) Start k p c' Hi ltac:(not_leader) Hk Hl) as [_ Hk'].
    exact (inv_led _ Hv _ _ _ _ _ Hj Hk' Hl).
  - exact (inv_cnt _ Hv).
Qed.

Lemma no_leader (s : state R) :
  inv s -> m s = None -> forall j p c, ths s !! j = Some p -> ~ is_leader p c.
Proof.
  intros Hv Hm j p c Hj Hl.
  assert (H : m s = Some c) by (apply (inv_m _ Hv); eauto). congruence.
Qed.

Lemma step_install_inv (s : state R) i :
  inv s -> ths s !! i = Some Start -> m s = None ->
  inv (mkState (Some (length (calls s))) (calls s ++ [None]) (cnt s)
               (<[i := Run (length (calls s))]> (ths s))).
Proof.
  intros Hv Hi Hm. pose proof (no_leader s Hv Hm) as Hnl.
  constructor; simpl.
  - intros c'. split.
    + intros [= <-]. exists i, (Run (length (calls s))). split; [exact (ins_self _ _ _ _ Hi)|].
      left. reflexivity.
    + intros (j & p & Hj & Hl). apply ins_Some in Hj as [[_ <-]|[_ Hj]].
      * destruct Hl as [Hl|Hl]; [injection Hl as ->; reflexivity|discriminate].
      * exfalso. exact (Hnl _ _ _ Hj Hl).
  - intros j k pj pk cj ck Hj Hk Hlj Hlk.
    apply ins_Some in Hj as [[<- _]|[_ Hj]]; [|exfalso; exact (Hnl _ _ _ Hj Hlj)].
    apply ins_Some in Hk as [[<- _]|[_ Hk]]; [reflexivity|exfalso; exact (Hnl _ _ _ Hk Hlk)].
  - intros j c' Hj. apply ins_Some in Hj as [[_ He]|[_ Hj]].
    + injection He as <-. rewrite lookup_app_r by lia. rewrite Nat.sub_diag. reflexivity.
    + pose proof (inv_run _ Hv _ _ Hj) as Hc. rewrite lookup_app_l; [exact Hc|].
      exact (lookup_lt_Some _ _ _ Hc).
  - intros j c' Hj. apply ins_Some in Hj as [[_ He]|[_ Hj]]; [discriminate|].
    destruct (inv_done _ Hv _ _ Hj) as [r Hc]. exists r.
    rewrite lookup_app_l; [exact Hc|]. exact (lookup_lt_Some _ _ _ Hc).
  - intros j l c' r Hj. apply ins_Some in Hj as [[_ He]|[_ Hj]]; [discriminate|].
    pose proof (inv_ret _ Hv _ _ _ _ Hj) as Hc.
    rewrite lookup_app_l; [exact Hc|]. exact (lookup_lt_Some _ _ _ Hc).
  - intros j k c' r p Hj Hk Hl. apply ins_Some in Hj as [[_ He]|[_ Hj]]; [discriminate|].
    pose proof (inv_ret _ Hv _ _ _ _ Hj) as Hc. apply lookup_lt_Some in Hc.
    apply ins_Some in Hk as [[_ <-]|[_ Hk]].
    + destruct Hl as [Hl|Hl]; [injection Hl as Hl; lia|discriminate].
    + exact (Hnl _ _ _ Hk Hl).
  - rewrite nfilled_snoc_none. exact (inv_cnt _ Hv).
Qed.

Lemma step_fn_inv (s : state R) i c :
  inv s -> ths s !! i = Some (Run c) ->
  inv (mkState (m s) (<[c := Some (fn (S (cnt s)))]> (calls s)) (S (cnt s))
               (<[i := Done c]> (ths s))).
Proof.
  intros Hv Hi. pose proof (inv_run _ Hv _ _ Hi) as Hc.
  assert (Hli : is_leader (Run (R:=R) c) c) by (left; reflexivity).
  (* every leader of [s] is thread [i] *)
  assert (Honly : forall j p c', ths s !! j = Some p -> is_leader p c' -> j = i).
  { intros j p c' Hj Hl. exact (inv_one _ Hv _ _ _ _ _ _ Hj Hi Hl Hli). }
  assert (Hnew : forall j p c', <[i := Done c]> (ths s) !! j = Some p ->
                 is_leader p c' -> j = i /\ p = Done c /\ c' = c).
  { intros j p c' Hj Hl. apply ins_Some in Hj as [[<- <-]|[Hne Hj]].
    - destruct Hl as [Hl|Hl]; [discriminate|injection Hl as ->; auto].
    - exfalso. exact (Hne (eq_sym (Honly _ _ _ Hj Hl))). }
  constructor; simpl.
  - intros c'. rewrite (inv_m _ Hv c'). split.
    + intros (j & p & Hj & Hl). pose proof (Honly _ _ _ Hj Hl) as ->.
      rewrite Hi in Hj. injection Hj as <-.
      destruct Hl as [Hl|Hl]; [injection Hl as <-|discriminate].
      exists i, (Done c). split; [exact (ins_self _ _ _ _ Hi)|right; reflexivity].
    + intros (j & p & Hj & Hl). destruct (Hnew _ _ _ Hj Hl) as (-> & -> & ->).
      exists i, (Run c). split; [exact Hi|exact Hli].
  - intros j k pj pk cj ck Hj Hk Hlj Hlk.
    destruct (Hnew _ _ _ Hj Hlj) as (-> & _). destruct (Hnew _ _ _ Hk Hlk) as (-> & _).
    reflexivity.
  - intros j c' Hj. exfalso. assert (Hl : is_leader (Run (R:=R) c') c') by (left; reflexivity).
    destruct (Hnew _ _ _ Hj Hl) as (_ & He & _). discriminate.
  - intros j c' Hj. assert (Hl : is_leader (Done (R:=R) c') c') by (right; reflexivity).
    destruct (Hnew _ _ _ Hj Hl) as (_ & _ & ->).
    exists (fn (S (cnt s))). apply list_lookup_insert_eq. exact (lookup_lt_Some _ _ _ Hc).
  - intros j l c' r Hj. apply ins_Some in Hj as [[_ He]|[_ Hj]]; [discriminate|].
    pose proof (inv_ret _ Hv _ _ _ _ Hj) as Hc'.
    rewrite list_lookup_insert_ne; [exact Hc'|]. intros ->. congruence.
  - intros j k c' r p Hj Hk Hl. apply ins_Some in Hj as [[_ He]|[_ Hj]]; [discriminate|].
    destruct (Hnew _ _ _ Hk Hl) as (-> & -> & ->).
    exact (inv_led _ Hv _ _ _ _ _ Hj Hi Hli).
  - rewrite (nfilled_fill _ _ _ Hc). f_equal. exact (inv_cnt _ Hv).
Qed.

Lemma step_delete_inv (s : state R) i c r :
  inv s -> ths s !! i = Some (Done c) -> calls s !! c = Some (Some r) ->
  inv (mkState None (calls s) (cnt s) (<[i := Ret true c r]> (ths s))).
Proof.
  intros Hv Hi Hc.
  assert (Hli : is_leader (Done (R:=R) c) c) by (right; reflexivity).
  assert (Hnone : forall j p c', <[i := Ret true c r]> (ths s) !! j = Some p ->
                  ~ is_leader p c').
  { intros j p c' Hj Hl. apply ins_Some in Hj as [[_ <-]|[Hne Hj]].
    - revert Hl. not_leader.
    - exact (Hne (inv_one _ Hv _ _ _ _ _ _ Hi Hj Hli Hl)). }
  constructor; simpl.
  - intros c'. split; [discriminate|]. intros (j & p & Hj & Hl).
    exfalso. exact (Hnone _ _ _ Hj Hl).
  - intros j k pj pk cj ck Hj _ Hlj _. exfalso. exact (Hnone _ _ _ Hj Hlj).
  - intros j c' Hj. exfalso. refine (Hnone _ _ c' Hj _). left. reflexivity.
  - intros j c' Hj. exfalso. refine (Hnone _ _ c' Hj _). right. reflexivity.
  - intros j l c' r' Hj. apply ins_Some in Hj as [[_ He]|[_ Hj]].
    + injection He as _ <- <-. exact Hc.
    + exact (inv_ret _ Hv _ _ _ _ Hj).
  - intros j k c' r' p _ Hk Hl. exact (Hnone _ _ _ Hk Hl).
  - exact (inv_cnt _ Hv).
Qed.

Lemma step_wake_inv (s : state R) i c r :
  inv s -> ths s !! i = Some (Wait c) -> calls s !! c = Some (Some r) ->
  inv (mkState (m s) (calls s) (cnt s) (<[i := Ret false c r]> (ths s))).
Proof.
  intros Hv Hi Hc.
  assert (Hfr : forall j p c', <[i := Ret false c r]> (ths s) !! j = Some p ->
                is_leader p c' -> ths s !! j = Some p).
  { intros j p c' Hj Hl. apply ins_Some in Hj as [[_ <-]|[_ Hj]]; [|exact Hj].
    revert Hl. not_leader. }
  constructor; simpl.
  - intros c'. rewrite (inv_m _ Hv c'). split.
    + intros (j & p & Hj & Hl). exists j, p. split; [|exact Hl].
      rewrite list_lookup_insert_ne; [exact Hj|]. intros ->. rewrite Hi in Hj.
      injection Hj as <-. revert Hl. not_leader.
    + intros (j & p & Hj & Hl). exists j, p. split; [exact (Hfr _ _ _ Hj Hl)|exact Hl].
  - intros j k pj pk cj ck Hj Hk Hlj Hlk.
    exact (inv_one _ Hv _ _ _ _ _ _ (Hfr _ _ _ Hj Hlj) (Hfr _ _ _ Hk Hlk) Hlj Hlk).
  - intros j c' Hj. apply ins_Some in Hj as [[_ He]|[_ Hj]]; [discriminate|].
    exact (inv_run _ Hv _ _ Hj).
  - intros j c' Hj. apply ins_Some in Hj as [[_ He]|[_ Hj]]; [discriminate|].
    exact (inv_done _ Hv _ _ Hj).
  - intros j l c' r' Hj. apply ins_Some in Hj as [[_ He]|[_ Hj]].
    + injection He as _ <- <-. exact Hc.
    + exact (inv_ret _ Hv _ _ _ _ Hj).
  - intros j k c' r' p Hj Hk Hl. apply ins_Some in Hj as [[_ He]|[_ Hj]]; [discriminate|].
    exact (inv_led _ Hv _ _ _ _ _ Hj (Hfr _ _ _ Hk Hl) Hl).
  - exact (inv_cnt _ Hv).
Qed.

Lemma step_inv i (s s' : state R) : inv s -> step fn i s s' -> inv s'.
Proof.
  intros Hv Hs. destruct Hs.
  - apply step_join_inv; assumption.
  - apply step_install_inv; assumption.
  - apply step_fn_inv; assumption.
  - apply step_delete_inv; assumption.
  - apply step_wake_inv; assumption.
Qed.

Lemma reachable_inv N (s : state R) : reachable fn N s -> inv s.
Proof.
  unfold reachable. intros Hr. remember (init N) as s0 eqn:Hs0.
  assert (H0 : inv s0) by (subst; apply inv_init). clear Hs0.
  induction Hr as [s0|s0 s1 s2 [i Hst] Hr IH]; [exact H0|].
  apply IH. exact (step_inv i _ _ H0 Hst).
Qed.

(** Claim C1, as amended. In every state reachable from [N] concurrent
    callers of [Do(key, fn)]: at most one [fn] runs at any moment; every
    caller that has returned holds the [(value, error)] stored in the call
    record it led or joined, so all callers of one record observe the same
    pair; and [fn] has run exactly once per call record whose result is set. *)
Theorem singleflight_one_fn_per_record N (s : state R) :
  reachable fn N s ->
  (forall i j ci cj, ths s !! i = Some (Run ci) -> ths s !! j = Some (Run cj) -> i = j) /\
  (forall i l c r, ths s !! i = Some (Ret l c r) -> calls s !! c = Some (Some r)) /\
  (forall i j li lj c ri rj, ths s !! i = Some (Ret li c ri) ->
     ths s !! j = Some (Ret lj c rj) -> ri = rj) /\
  cnt s = nfilled (calls s).
Proof.
  intros Hr. pose proof (reachable_inv N s Hr) as Hv.
  split; [|split; [|split]].
  - intros i j ci cj Hi Hj.
    refine (inv_one _ Hv _ _ _ _ ci cj Hi Hj _ _); left; reflexivity.
  - exact (inv_ret _ Hv).
  - intros i j li lj c ri rj Hi Hj.
    pose proof (inv_ret _ Hv _ _ _ _ Hi) as H1. pose proof (inv_ret _ Hv _ _ _ _ Hj) as H2.
    congruence.
  - exact (inv_cnt _ Hv).
Qed.

(** Claim C8. In every reachable state the record of the key is in [g.m]
    exactly while a leader's load is under way (its [fn] running, or [fn]
    returned and waiters released but the record not yet deleted); a leader
    that has returned no longer finds its record in [g.m]; and once no load
    is under way, the next caller installs a fresh record (no result set) and
    runs [fn] itself. *)
Theorem singleflight_record_lifetime N (s : state R) :
  reachable fn N s ->
  (forall c, m s = Some c <-> exists i p, ths s !! i = Some p /\ is_leader p c) /\
  (forall i c r, ths s !! i = Some (Ret true c r) -> m s <> Some c) /\
  ((forall i p c, ths s !! i = Some p -> ~ is_leader p c) ->
   forall i s', ths s !! i = Some Start -> step fn i s s' ->
   m s' = Some (length (calls s)) /\ calls s' !! length (calls s) = Some None /\
   ths s' !! i = Some (Run (length (calls s)))).
Proof.
  intros Hr. pose proof (reachable_inv N s Hr) as Hv.
  split; [exact (inv_m _ Hv)|split].
  - intros i c r Hi Hm. apply (inv_m _ Hv) in Hm as (j & p & Hj & Hl).
    exact (inv_led _ Hv _ _ _ _ _ Hi Hj Hl).
  - intros Hnol i s' Hi Hst.
    assert (Hm : m s = None).
    { destruct (m s) as [c|] eqn:Hm; [|reflexivity].
      apply (inv_m _ Hv) in Hm as (j & p & Hj & Hl). exfalso. exact (Hnol _ _ _ Hj Hl). }
    inversion Hst; subst; simpl; try congruence.
    split; [reflexivity|]. split.
    + rewrite lookup_app_r by lia. rewrite Nat.sub_diag. reflexivity.
    + exact (ins_self _ _ _ _ Hi).
Qed.

End Facts.

Lemma sequential_trace_reachable :
  reachable (fun n : nat => n) 2 sequential_trace_end.
Proof.
  unfold reachable.
  eapply rtc_l; [exists 0; apply step_install; reflexivity|].
  eapply rtc_l; [exists 0; apply step_fn; reflexivity|].
  eapply rtc_l; [exists 0; eapply step_delete; reflexivity|].
  eapply rtc_l; [exists 1; apply step_install; reflexivity|].
  eapply rtc_l; [exists 1; apply step_fn; reflexivity|].
  eapply rtc_l; [exists 1; eapply step_delete; reflexivity|].
  apply rtc_refl.
Qed.

(** Counterexample to claim C1 as stated. *)
Lemma singleflight_exactly_once_fails : ~ exactly_once_claim (fun n : nat => n) 2.
Proof.
  intros H. destruct (H sequential_trace_end sequential_trace_reachable) as [Hc _].
  - intros i p Hi. destruct i as [|[|i]]; simpl in Hi;
      [injection Hi as <-; eauto|injection Hi as <-; eauto|discriminate].
  - discriminate.
Qed.

Lemma singleflight_one_fn_per_record_witness :
  cnt sequential_trace_end = nfilled (calls sequential_trace_end) /\
  calls sequential_trace_end !! 1 = Some (Some 2).
Proof.
  destruct (singleflight_one_fn_per_record (fun n : nat => n) 2 sequential_trace_end
              sequential_trace_reachable) as (_ & H2 & _ & H4).
  split; [exact H4|]. apply (H2 1 true 1 2). reflexivity.
Defined.

Lemma singleflight_record_lifetime_witness :
  m sequential_trace_end <> Some 0.
Proof.
  destruct (singleflight_record_lifetime (fun n : nat => n) 2 sequential_trace_end
              sequential_trace_reachable) as (_ & H2 & _).
  apply (H2 0 0 1). reflexivity.
Defined.

End SFFacts.

(** ** Scenario S1 *)
Module S1Facts.
Import LRU S1.

(** C3 (counterexample): the fourth [Add] of scenario S1 does not end at
    size 10 with only ["a"] evicted. *)
Lemma s1_spec_scenario_fails : ~ spec_scenario.
Proof.
  unfold spec_scenario. vm_compute. intros (_ & _ & _ & H). discriminate H.
Qed.

(** C3: on an engine with [maxBytes = 10], adding ["a"], ["b"], ["c"] with
    values ["1"], ["22"], ["333"] and no expiry gives sizes 2, 5 and 9. The
    entry of ["d"] with ["4444"] is 5 bytes, so [Add("d", ...)] brings the
    size to 14; eviction removes the oldest entries ["a"] (to 12) and then
    ["b"] (to 9), leaving ["d"] and ["c"] and size 9. *)
Lemma s1_lru_capacity_trace :
  summary ca = Some (2%Z, ["a"]) /\
  summary cb = Some (5%Z, ["b"; "a"]) /\
  summary cc = Some (9%Z, ["c"; "b"; "a"]) /\
  entry_size blen (mkEntry "d" (bytes "4444") 0) = 5%Z /\
  summary cd = Some (9%Z, ["d"; "c"]).
Proof. vm_compute. repeat split. Qed.

End S1Facts.

(** ** The Group's read path *)
Module GroupFacts.
Import GroupModel S6.
Local Open Scope Z_scope.

Section Facts.
Context {LFUcache : Type} (lfu_new : Z -> LFUcache)
  (lfu_add : LFUcache -> string -> ByteView -> res LFUcache)
  (lfu_get : LFUcache -> string -> Z -> LFUcache * option ByteView)
  (etcdNew : option string).

Lemma round_within (d : Z) : 0 <= d < 60 -> Z.max 1 (round_minutes d) = 1.
Proof.
  intros Hd. unfold round_minutes.
  destruct (Z.leb_spec 0 d); [|lia].
  assert (0 <= (d + 30) / 60 < 2).
  { split; [apply Z.div_pos; lia|]. apply Z.div_lt_upper_bound; lia. }
  lia.
Qed.

Lemma fetches_cons (g : Group LFUcache) mem pg key t ts g' mem' r :
  getFromPeer lfu_add etcdNew g mem pg key t = Ok (g', mem', r) ->
  fetches lfu_add etcdNew g mem pg key (t :: ts) = fetches lfu_add etcdNew g' mem' pg key ts.
Proof. intros H. simpl. rewrite H. reflexivity. Qed.

(** First fetch of a key: its statistics start at one. *)
Lemma getFromPeer_first (g : Group LFUcache) mem pg key now bs :
  pg (name g) key = inr bs -> keys g !! key = None ->
  getFromPeer lfu_add etcdNew g mem (Some pg) key now =
  Ok (set_keys g (<[key := mkStats now 1]> (keys g)), fst (make mem bs),
      inr (mkView (snd (make mem bs)) 0)).
Proof. intros H1 H2. unfold getFromPeer. rewrite H1, H2. reflexivity. Qed.

(** A later fetch within the first minute below the threshold: the count
    goes up. *)
Lemma getFromPeer_count (g : Group LFUcache) mem pg key now bs st :
  pg (name g) key = inr bs -> keys g !! key = Some st ->
  0 <= now - firstGetTime st < 60 -> remoteCnt st + 1 < maxMinuteRemoteQPS ->
  getFromPeer lfu_add etcdNew g mem (Some pg) key now =
  Ok (set_keys g (<[key := mkStats (firstGetTime st) (remoteCnt st + 1)]> (keys g)),
      fst (make mem bs), inr (mkView (snd (make mem bs)) 0)).
Proof.
  intros H1 H2 Ht Hc. unfold getFromPeer. rewrite H1, H2. cbn -[Z.quot round_minutes].
  rewrite round_within by exact Ht. rewrite Z.quot_1_r.
  destruct (Z.leb_spec maxMinuteRemoteQPS (remoteCnt st + 1)); [lia|reflexivity].
Qed.

(** The fetch that reaches the threshold within the first minute: the view
    goes to the hot cache and the statistics are deleted. *)
Lemma getFromPeer_promote (g : Group LFUcache) mem pg key now bs st :
  pg (name g) key = inr bs -> keys g !! key = Some st ->
  0 <= now - firstGetTime st < 60 -> remoteCnt st + 1 = maxMinuteRemoteQPS ->
  getFromPeer lfu_add etcdNew g mem (Some pg) key now =
  (let view := mkView (snd (make mem bs)) 0 in
   let* hc := cache_add lfu_add (hotCache g) key view in
   Ok (set_keys (set_hot g hc)
         (delete key (<[key := mkStats (firstGetTime st) (remoteCnt st + 1)]> (keys g))),
       fst (make mem bs), inr view)).
Proof.
  intros H1 H2 Ht Hc. unfold getFromPeer. rewrite H1, H2. cbn -[Z.quot round_minutes].
  rewrite round_within by exact Ht. rewrite Z.quot_1_r.
  destruct (Z.leb_spec maxMinuteRemoteQPS (remoteCnt st + 1)); [|lia].
  reflexivity.
Qed.

Ltac count_step :=
  erewrite fetches_cons;
  [| eapply getFromPeer_count;
     [eassumption | apply lookup_insert_eq | simpl; lia
     | unfold maxMinuteRemoteQPS; simpl; lia]].

(** C6: on a fresh ["lru"] group, ten successful fetches of ["k"] from a
    peer, all within a minute of the first, promote the value to the hot
    cache on the tenth fetch and delete the key's statistics. An eleventh
    fetch then records new statistics for ["k"] (first seen now, count 1),
    so ["k"] is back in [keys]; the hot cache still holds the value and the
    next [GetCacheData("k")] is served from it. *)
Theorem hot_promotion_after_fetches (getter : Getter) (pg : PeerGetter)
  (gs : gmap string (Group LFUcache)) (g : Group LFUcache) (t1 t11 : Z) (ts : list Z) :
  NewGroup lfu_new ∅ "scores" 2048 "lru" (Some getter) = Ok (gs, g) ->
  pg "scores" "k" = inr (bytes "v") ->
  length ts = 9%nat ->
  Forall (fun t => 0 <= t - t1 < 60) (ts ++ [t11]) ->
  exists g10 mem10 g11 mem11 v11 v,
    fetches lfu_add etcdNew g (mkMem ∅ 0) (Some pg) "k" (t1 :: ts) = Ok (g10, mem10) /\
    keys g10 !! "k" = None /\
    getFromPeer lfu_add etcdNew g10 mem10 (Some pg) "k" t11 = Ok (g11, mem11, inr v11) /\
    keys g11 !! "k" = Some (mkStats t11 1) /\
    String mem11 v = "v" /\
    forall now, exists hc,
      cache_get lfu_get (hotCache g11) "k" now = Ok (hc, Some v) /\
      GetCacheData lfu_add lfu_get etcdNew g11 mem11 "k" now = Ok (set_hot g11 hc, mem11, inr v).
Proof.
  intros Hg Hpg Hlen Hts.
  cbv [NewGroup newCache] in Hg. simpl in Hg. injection Hg as _ <-.
  destruct ts as [|t2 [|t3 [|t4 [|t5 [|t6 [|t7 [|t8 [|t9 [|t10 [|]]]]]]]]]];
    simpl in Hlen; try discriminate. cbn [app] in Hts.
  repeat rewrite Forall_cons in Hts. rewrite Forall_nil in Hts. destruct_and! Hts.
  erewrite fetches_cons by (apply getFromPeer_first; [exact Hpg | reflexivity]).
  do 8 count_step.
  erewrite fetches_cons.
  2:{ rewrite (getFromPeer_promote _ _ _ _ _ (bytes "v") (mkStats t1 9));
      [ | eassumption | apply lookup_insert_eq | simpl; lia
        | unfold maxMinuteRemoteQPS; simpl; lia].
      simpl. reflexivity. }
  simpl fetches.
  do 6 eexists. split; [reflexivity|]. split.
  { apply lookup_delete_eq. }
  split.
  { rewrite (getFromPeer_first _ _ _ _ _ (bytes "v"));
      [reflexivity | eassumption | apply lookup_delete_eq]. }
  split; [apply lookup_insert_eq|].
  split.
  { instantiate (1 := mkView (mkSlice 9 1) 0). vm_compute. reflexivity. }
  intros now. eexists. split.
  - vm_compute. reflexivity.
  - vm_compute. reflexivity.
Qed.

(** [getLocally] on a loaded key: the cached view has its own backing
    array, so the loader's slice can be written without effect on it. *)
Lemma getLocally_clone (g : Group LFUcache) mem key bs g' mem' v :
  getter g key = inr bs ->
  getLocally lfu_add g mem key = Ok (g', mem', inr v) ->
  b v = mkSlice (S (next mem)) (length bs) /\
  contents mem' (b v) = bs /\
  forall i x mem'', store mem' (mkSlice (next mem) (length bs)) i x = Ok mem'' ->
    contents mem'' (b v) = bs.
Proof.
  intros Hget H. unfold getLocally in H. rewrite Hget in H.
  cbn -[cache_add] in H.
  destruct (cache_add _ (mainCache g) _ _) as [mc| |]; cbn in H; try discriminate.
  destruct (cache_add _ (hotCache g) _ _) as [hc| |]; cbn in H; try discriminate.
  injection H as <- <- <-. cbn.
  unfold contents; cbn. rewrite lookup_insert_eq. cbn.
  rewrite lookup_insert_eq, take_ge by lia. cbn.
  rewrite take_ge by lia.
  split; [reflexivity|]. split; [reflexivity|].
  intros i x mem'' Hs. unfold store in Hs. cbn in Hs.
  rewrite lookup_insert_ne in Hs by lia. rewrite lookup_insert_eq in Hs.
  repeat case_match; try discriminate.
  injection Hs as <-. cbn. rewrite lookup_insert_ne by lia.
  rewrite lookup_insert_eq. cbn. rewrite take_ge by lia. reflexivity.
Qed.








End Facts.

Lemma hot_promotion_after_fetches_witness :
  exists g10 mem10 g11 mem11 v11 v,
    fetches no_lfu_add None scores (mkMem ∅ 0) (Some peer_v) "k"
      (0 :: map Z.of_nat (seq 1 9)) = Ok (g10, mem10) /\
    keys g10 !! "k" = None /\
    getFromPeer no_lfu_add None g10 mem10 (Some peer_v) "k" 10 = Ok (g11, mem11, inr v11) /\
    keys g11 !! "k" = Some (mkStats 10 1) /\
    String mem11 v = "v".
Proof.
  destruct (hot_promotion_after_fetches no_lfu_new no_lfu_add no_lfu_get None loader peer_v
              (<["scores" := scores]> ∅) scores 0 10 (map Z.of_nat (seq 1 9)))
    as (g10 & mem10 & g11 & mem11 & v11 & v & H1 & H2 & H3 & H4 & H5 & _).
  - reflexivity.
  - reflexivity.
  - reflexivity.
  - apply (bool_decide_unpack _). vm_compute. reflexivity.
  - exists g10, mem10, g11, mem11, v11, v. tauto.
Defined.

(** C6 (counterexample): with fetches of ["k"] at seconds 0 to 10, the
    eleventh fetch records new statistics for ["k"], so it is not absent
    from [keys]; this holds whatever [clientv3.New] would return. *)
Lemma hot_promotion_spec_fails : ~ exists etcdNew, S6.spec_hot_promotion etcdNew.
Proof.
  intros (etcdNew & g & mem & Hf & Hk & _).
  vm_compute in Hf. injection Hf as <- <-. vm_compute in Hk. discriminate Hk.
Qed.

(** C7: [getLocally] stores a clone of the loader's bytes: whatever the
    loader later writes through its slice, the cached view keeps the loaded
    bytes. [getFromPeer] stores [ByteView{b: res.Value}] without a clone: on
    the tenth fetch of ["k"] from a peer answering ["v"] (seconds 0 to 9),
    the view put in the hot cache and the view returned share [res.Value],
    and a write of ["x"] through the returned slice changes what the next
    hot-cache read returns from ["v"] to ["x"]. *)
Theorem peer_bytes_not_cloned :
  (forall (LFUcache : Type) (lfu_add : LFUcache -> string -> ByteView -> res LFUcache)
          (g : Group LFUcache) mem key bs g' mem' v,
     getter g key = inr bs ->
     getLocally lfu_add g mem key = Ok (g', mem', inr v) ->
     contents mem' (b v) = bs /\
     forall i x mem'', store mem' (mkSlice (next mem) (length bs)) i x = Ok mem'' ->
       contents mem'' (b v) = bs) /\
  (forall etcdNew, exists g9 mem9 g10 mem10 v hc v' mem',
     fetches no_lfu_add etcdNew scores (mkMem ∅ 0) (Some peer_v) "k"
       (map Z.of_nat (seq 0 9)) = Ok (g9, mem9) /\
     getFromPeer no_lfu_add etcdNew g9 mem9 (Some peer_v) "k" 9 = Ok (g10, mem10, inr v) /\
     cache_get no_lfu_get (hotCache g10) "k" 10 = Ok (hc, Some v') /\
     b v' = b v /\
     String mem10 v' = "v" /\
     store mem10 (b v) 0 Byte.x78 = Ok mem' /\
     String mem' v' = "x").
Proof.
  split.
  - intros LFUcache lfu_add g mem key bs g' mem' v Hget H.
    destruct (getLocally_clone lfu_add g mem key bs g' mem' v Hget H) as (_ & H1 & H2).
    split; [exact H1 | exact H2].
  - intros etcdNew. do 8 eexists.
    split; [vm_compute; reflexivity|].
    split; [vm_compute; reflexivity|].
    split; [vm_compute; reflexivity|].
    split; [reflexivity|].
    split; [vm_compute; reflexivity|].
    split; [vm_compute; reflexivity|].
    vm_compute. reflexivity.
Qed.

Lemma peer_bytes_not_cloned_witness :
  exists g' mem' v mem'',
    getLocally no_lfu_add tom_group (mkMem ∅ 0) "Tom" = Ok (g', mem', inr v) /\
    store mem' (mkSlice 0 3) 0 Byte.x78 = Ok mem'' /\
    contents mem'' (b v) = bytes "630".
Proof.
  do 4 eexists. split; [vm_compute; reflexivity|]. split; [vm_compute; reflexivity|].
  refine (proj2 (proj1 peer_bytes_not_cloned unit no_lfu_add tom_group (mkMem ∅ 0) "Tom"
                   (bytes "630") _ _ _ _ _) 0%nat Byte.x78 _ _).
  - reflexivity.
  - vm_compute. reflexivity.
  - vm_compute. reflexivity.
Defined.




End GroupFacts.

(** ** The server's peer choice *)
Module ServerFacts.
Import ServerModel ConsistentHash ServerSpec.

Lemma add_replicas_length (m : Map) (key : string) :
  length (ring (add_replicas m key)) = (length (ring m) + Z.to_nat (replicas m))%nat /\
  replicas (add_replicas m key) = replicas m.
Proof.
  unfold add_replicas.
  match goal with |- context [fold_left ?F _ _] =>
    assert (Hf : forall l m0, replicas m0 = replicas m ->
      length (ring (fold_left F l m0)) = (length (ring m0) + length l)%nat /\
      replicas (fold_left F l m0) = replicas m)
  end.
  { induction l as [|i l IH]; intros m0 Hr; cbn [fold_left length]; [split; [lia|exact Hr]|].
    match goal with |- context [fold_left _ l ?m1] => destruct (IH m1 Hr) as [H1 H2] end.
    rewrite H1, H2. cbn [ring]. rewrite length_app. cbn [length]. split; [lia|reflexivity]. }
  destruct (Hf (seq 0 (Z.to_nat (replicas m))) m eq_refl) as [H1 H2].
  rewrite H1, length_seq. split; [reflexivity|exact H2].
Qed.

Lemma Add_ring_length (m : Map) (ks : list string) :
  length (ring (Add m ks)) = (length (ring m) + length ks * Z.to_nat (replicas m))%nat /\
  replicas (Add m ks) = replicas m.
Proof.
  unfold Add. cbn [ring replicas].
  rewrite (Permutation_length (merge_sort_Permutation _ _)).
  revert m. induction ks as [|k ks IH]; intros m; simpl; [split; [lia|reflexivity]|].
  destruct (IH (add_replicas m k)) as [H1 H2].
  destruct (add_replicas_length m k) as [H3 H4].
  rewrite H1, H2, H3, H4. split; [lia|reflexivity].
Qed.

Lemma NewServer_inv (self0 : string) : srv_inv self0 (NewServer self0).
Proof. split; [reflexivity|]. do 2 eexists. repeat split. left. reflexivity. Qed.

Lemma SetPeers_inv self0 s ks s' :
  srv_inv self0 s -> SetPeers s ks = Ok s' -> srv_inv self0 s'.
Proof.
  intros (Hself & m & cl & Hp & Hr & Hc & Hor) H. unfold SetPeers in H.
  rewrite Hp, Hc in H. destruct (Add_ring_length m ks) as [Hl Hr'].
  destruct ks as [|k ks].
  - injection H as <-. split; [exact Hself|].
    exists (Add m []), cl. split; [reflexivity|]. split; [congruence|].
    split; [reflexivity|].
    destruct Hor as [->|Hne]; [left; reflexivity|right].
    intros He. apply Hne. apply length_zero_iff_nil.
    rewrite He in Hl. simpl in Hl. lia.
  - injection H as <-. split; [exact Hself|].
    do 2 eexists. split; [reflexivity|]. split; [congruence|].
    split; [reflexivity|]. right.
    intros He. rewrite He, Hr in Hl. simpl in Hl. unfold defaultReplicas in Hl. simpl in Hl. lia.
Qed.

Lemma SetAll_inv self0 s calls s' :
  srv_inv self0 s -> SetAll s calls = Ok s' -> srv_inv self0 s'.
Proof.
  revert s. induction calls as [|c cs IH]; intros s Hs H; simpl in H.
  - injection H as <-. exact Hs.
  - destruct (SetPeers s c) as [s1| |] eqn:E; try discriminate.
    eapply IH; [eapply SetPeers_inv; eassumption | exact H].
Qed.

(** C10: when the ring maps a key to an address other than [self] that has
    no client, [PickPeer] answers a nil client with [ok = true]. This is so
    whenever the ring is empty on a server built by [NewServer(self)] with a
    non-empty [self] and any [Set] calls: [Get] returns [""] and no client
    is registered. *)
Theorem pickpeer_remote_without_client :
  (forall s key m, peers s = Some m -> Get m key <> self s ->
     match clients s with Some cl => cl !! Get m key | None => None end = None ->
     PickPeer s key = Ok (None, true)) /\
  (forall self0 calls s key m, SetAll (NewServer self0) calls = Ok s ->
     self0 <> "" -> peers s = Some m -> ring m = [] ->
     PickPeer s key = Ok (None, true)).
Proof.
  split.
  - intros s key m Hp Hne Hc. unfold PickPeer. rewrite Hp.
    destruct (String.eqb_spec (Get m key) (self s)); [contradiction|].
    rewrite Hc. reflexivity.
  - intros self0 calls s key m Hs Hself Hp Hring.
    destruct (SetAll_inv self0 _ calls s (NewServer_inv self0) Hs)
      as (Hself' & m' & cl & Hp' & _ & Hc & Hor).
    rewrite Hp in Hp'. injection Hp' as <-.
    destruct Hor as [Hcl|]; [|contradiction].
    unfold PickPeer. rewrite Hp, Hc, Hcl, Hself'.
    assert (HG : Get m key = "") by (unfold Get; rewrite Hring; reflexivity).
    rewrite HG. destruct (String.eqb_spec "" self0); [congruence|].
    reflexivity.
Qed.

Lemma pickpeer_remote_without_client_witness :
  PickPeer remote_only "k" = Ok (None, true) /\
  PickPeer (NewServer "localhost:9999") "k" = Ok (None, true).
Proof.
  destruct pickpeer_remote_without_client as [H1 H2]. split.
  - apply (H1 remote_only "k" (Add (New defaultReplicas None) ["y:2"])).
    + reflexivity.
    + vm_compute. discriminate.
    + vm_compute. reflexivity.
  - apply (H2 "localhost:9999" [] (NewServer "localhost:9999") "k" (New defaultReplicas None)).
    + reflexivity.
    + discriminate.
    + reflexivity.
    + reflexivity.
Defined.

End ServerFacts.

(** ** Further properties of the LRU engine *)
Module LRUExtra.
Import LRU LRUFacts.
Local Open Scope Z_scope.
Section Facts.
Context {Value : Type} (Len : Value -> Z).
Local Open Scope Z_scope.
Local Abbreviation keys l := (map (@key Value) l).
Local Abbreviation wf := (LRUSpec.wf Len).
Local Abbreviation within_bound := (@LRUSpec.within_bound Value).

Lemma find_node_member (l : list (entry Value)) kv :
  NoDup (keys l) -> kv ∈ l -> find_node (key kv) l = Some kv.
Proof.
  induction l as [|e l IH]; simpl; intros Hnd Hin; [apply not_elem_of_nil in Hin; contradiction|].
  apply NoDup_cons in Hnd as [Hnin Hnd]. apply elem_of_cons in Hin as [->|Hin].
  - rewrite String.eqb_refl. reflexivity.
  - destruct (String.eqb_spec (key e) (key kv)) as [He|He].
    + exfalso. apply Hnin. rewrite He. apply list_elem_of_fmap. eauto.
    + exact (IH Hnd Hin).
Qed.

Lemma remove_node_absent k (l : list (entry Value)) : k ∉ keys l -> remove_node k l = l.
Proof.
  induction l as [|e l IH]; simpl; intros Hn; [reflexivity|].
  rewrite elem_of_cons in Hn.
  destruct (String.eqb_spec (key e) k) as [He|He]; [exfalso; apply Hn; left; congruence|].
  f_equal. apply IH. intros H. apply Hn. right. exact H.
Qed.

Lemma sum_bytes_nonneg (Len_nonneg : forall v, 0 <= Len v) (l : list (entry Value)) :
  0 <= sum_bytes Len l.
Proof.
  induction l as [|e l IH]; simpl; [lia|].
  pose proof (entry_size_nonneg Len Len_nonneg e). lia.
Qed.

(** [Add] is the [evict] loop run on the engine with the new entry at the
    front and the key's old node removed. *)
Lemma Add_unfold (c : LRUCache Value) k v e :
  wf c -> exists c1, Add Len c k v e = evict Len (S (length (ll c1))) c1 /\ wf c1 /\
    maxCapacity c1 = maxCapacity c /\ ll c1 = mkEntry k v e :: remove_node k (ll c).
Proof.
  intros Hwf. unfold Add.
  destruct (lookup_node c k) as [kv|] eqn:Hlk.
  - apply lookup_node_some in Hlk.
    destruct (find_node_some Len _ _ _ Hlk) as [Hk Hsum].
    pose proof (find_node_some_elem Len _ _ _ Hlk) as Hkin.
    destruct Hwf as (Hs & Hc & Hnd).
    eexists. split; [reflexivity|]. split; [|split; reflexivity].
    split; [|split].
    + simpl. unfold entry_size in *. simpl. rewrite Hs, Hsum, Hk. lia.
    + intros x. simpl. rewrite Hc, elem_of_cons, remove_node_keys by exact Hnd.
      destruct (decide (x = k)); [subst; tauto|tauto].
    + simpl. apply NoDup_cons. split.
      * rewrite remove_node_keys by exact Hnd. tauto.
      * apply remove_node_nodup, Hnd.
  - pose proof (lookup_node_none Len c k Hwf Hlk) as Hkn.
    destruct Hwf as (Hs & Hc & Hnd).
    eexists. split; [reflexivity|]. split; [|split; [reflexivity|]].
    + split; [|split].
      * simpl. unfold entry_size. simpl. lia.
      * intros x. simpl. rewrite elem_of_union, elem_of_singleton, Hc, elem_of_cons.
        tauto.
      * simpl. apply NoDup_cons. split; [exact Hkn|exact Hnd].
    + simpl. rewrite remove_node_absent by exact Hkn. reflexivity.
Qed.

(** An entry that fits the capacity is never evicted from the front. *)
Lemma evict_keeps_front (Len_nonneg : forall v, 0 <= Len v) fuel (c c' : LRUCache Value) x l :
  wf c -> ll c = x :: l ->
  (maxCapacity c = 0 \/ entry_size Len x <= maxCapacity c) ->
  evict Len fuel c = Some c' -> exists l', ll c' = x :: l'.
Proof.
  revert c l. induction fuel as [|f IH]; intros c l Hwf Hl Hfit Hev; simpl in Hev;
    destruct (negb (maxCapacity c =? 0) && (maxCapacity c <? curCapacity c)) eqn:Hcond.
  - discriminate.
  - injection Hev as <-. eauto.
  - apply andb_prop in Hcond as [Hne Hlt].
    apply negb_true_iff, Z.eqb_neq in Hne. apply Z.ltb_lt in Hlt.
    destruct l as [|y l] using rev_ind.
    + exfalso. destruct Hwf as (Hs & _ & _). rewrite Hl in Hs. simpl in Hs. lia.
    + destruct (RemoveOldest_snoc Len c (x :: l) y Hwf ltac:(rewrite Hl; reflexivity))
        as [Hll Hmc].
      apply (IH (RemoveOldest Len c) l); [apply RemoveOldest_wf, Hwf|exact Hll|lia|exact Hev].
  - injection Hev as <-. eauto.
Qed.

(** With a negative capacity the loop condition never becomes false. *)
Lemma evict_negative (Len_nonneg : forall v, 0 <= Len v) fuel (c : LRUCache Value) :
  wf c -> maxCapacity c < 0 -> evict Len fuel c = None.
Proof.
  revert c. induction fuel as [|f IH]; intros c Hwf Hm; simpl;
    pose proof Hwf as (Hs & Hc & Hnd);
    pose proof (sum_bytes_nonneg Len_nonneg (ll c));
    (replace (negb (maxCapacity c =? 0) && (maxCapacity c <? curCapacity c)) with true
       by (symmetry; apply andb_true_intro; split;
           [apply negb_true_iff, Z.eqb_neq; lia|apply Z.ltb_lt; lia])).
  - reflexivity.
  - apply IH; [apply RemoveOldest_wf; exact Hwf|].
    unfold RemoveOldest. destruct (last (ll c)); simpl; lia.
Qed.

Lemma evict_wf fuel (c c' : LRUCache Value) :
  wf c -> evict Len fuel c = Some c' -> wf c' /\ maxCapacity c' = maxCapacity c.
Proof.
  revert c. induction fuel as [|f IH]; intros c Hwf Hev; simpl in Hev;
    destruct (negb (maxCapacity c =? 0) && (maxCapacity c <? curCapacity c));
    try discriminate; try (injection Hev as <-; split; [exact Hwf|reflexivity]).
  destruct (IH _ (RemoveOldest_wf Len c Hwf) Hev) as [Hw Hm]. split; [exact Hw|].
  rewrite Hm. unfold RemoveOldest. destruct (last (ll c)); reflexivity.
Qed.

(** Every engine reached from [New m] by public operations is well formed,
    whatever the sign of [m]. *)
Lemma run_wf_any m ops (c : LRUCache Value) :
  run Len (New m) ops = Some c -> wf c /\ maxCapacity c = m.
Proof.
  assert (Hgen : forall c0, wf c0 -> run Len c0 ops = Some c ->
                 wf c /\ maxCapacity c = maxCapacity c0).
  { induction ops as [|o ops IH]; intros c0 Hwf Hrun; simpl in Hrun.
    - injection Hrun as <-. split; [exact Hwf|reflexivity].
    - destruct (exec_op Len c0 o) as [c1|] eqn:Ho; [|discriminate].
      assert (H1 : wf c1 /\ maxCapacity c1 = maxCapacity c0).
      { destruct o as [k v e|k now|]; simpl in Ho.
        - destruct (Add_unfold c0 k v e Hwf) as (c2 & Ha & Hw2 & Hm2 & _).
          rewrite Ha in Ho. destruct (evict_wf _ _ _ Hw2 Ho) as [Hw Hm].
          split; [exact Hw|congruence].
        - injection Ho as <-. destruct (Get_spec Len c0 k now Hwf) as (Hw & Hm & _).
          split; assumption.
        - injection Ho as <-. split; [apply RemoveOldest_wf, Hwf|].
          unfold RemoveOldest. destruct (last (ll c0)); reflexivity. }
      destruct H1 as [Hw1 Hm1]. destruct (IH c1 Hw1 Hrun) as [Hw Hm].
      split; [exact Hw|congruence]. }
  exact (Hgen (New m) (New_wf Len m)).
Qed.

(** X1. [Get(k)] on an engine reached from [New m] by public operations:
    a key that is not there misses and changes nothing; a live entry
    ([expire] the zero instant, or not before [now]) is returned and moved
    to the front, the other entries keeping their order, with the byte
    counter and the key set unchanged; an expired entry misses and is
    removed, its size taken off the counter. *)
Theorem lru_get_cases m ops (c : LRUCache Value) k now :
  run Len (New m) ops = Some c ->
  (k ∉ keys (ll c) -> Get Len c k now = (c, None)) /\
  (forall kv, kv ∈ ll c -> key kv = k ->
     (expire kv = 0 \/ now <= expire kv ->
        Get Len c k now = (mkLRU (maxCapacity c) (curCapacity c)
                                 (kv :: remove_node k (ll c)) (cache c), Some (value kv))) /\
     (expire kv <> 0 -> expire kv < now ->
        Get Len c k now = (mkLRU (maxCapacity c) (curCapacity c - entry_size Len kv)
                                 (remove_node k (ll c)) (cache c ∖ {[k]}), None))).
Proof.
  intros Hrun. destruct (run_wf_any m ops c Hrun) as [Hwf _].
  split.
  - intros Hn. unfold Get. destruct (lookup_node c k) as [kv|] eqn:Hlk; [|reflexivity].
    exfalso. apply Hn. apply lookup_node_some in Hlk.
    exact (find_node_some_elem Len _ _ _ Hlk).
  - intros kv Hin Hk. subst k.
    assert (Hlk : lookup_node c (key kv) = Some kv).
    { destruct Hwf as (_ & Hc & Hnd). unfold lookup_node.
      rewrite decide_True by (apply Hc, list_elem_of_fmap; eauto).
      apply find_node_member; assumption. }
    unfold Get. rewrite Hlk. unfold isZero, before. split.
    + intros Hlive.
      replace (negb (expire kv =? 0) && (expire kv <? now)) with false; [reflexivity|].
      symmetry. apply andb_false_iff. destruct Hlive as [H|H].
      * left. apply negb_false_iff, Z.eqb_eq. exact H.
      * right. apply Z.ltb_ge. exact H.
    + intros Hne Hlt.
      replace (negb (expire kv =? 0) && (expire kv <? now)) with true; [reflexivity|].
      symmetry. apply andb_true_intro. split.
      * apply negb_true_iff, Z.eqb_neq. exact Hne.
      * apply Z.ltb_lt. exact Hlt.
Qed.

(** X2. [RemoveOldest] on an engine reached from [New m] by public
    operations: on an empty engine it does nothing; otherwise it removes
    exactly the back entry of the list (the least recently used), keeps the
    order of the others, takes the entry's size off the byte counter and its
    key out of the map, and the engine stays consistent. *)
Theorem lru_remove_oldest m ops (c : LRUCache Value) :
  run Len (New m) ops = Some c ->
  (ll c = [] -> RemoveOldest Len c = c) /\
  (forall l kv, ll c = l ++ [kv] ->
     RemoveOldest Len c =
       mkLRU (maxCapacity c) (curCapacity c - entry_size Len kv) l (cache c ∖ {[key kv]}) /\
     wf (RemoveOldest Len c)).
Proof.
  intros Hrun. destruct (run_wf_any m ops c Hrun) as [Hwf _]. split.
  - intros Hl. unfold RemoveOldest. rewrite Hl. reflexivity.
  - intros l kv Hl. split; [|apply RemoveOldest_wf, Hwf].
    destruct (RemoveOldest_snoc Len c l kv Hwf Hl) as [Hll _].
    rewrite <- Hll. unfold RemoveOldest. rewrite Hl, last_snoc. reflexivity.
Qed.

(** X3. On an engine reached from [New m] by public operations, with
    [m > 0], an [Add(k, v, e)] whose entry is larger than [m] runs to
    completion and leaves the engine empty: the eviction loop removes every
    entry, the new one included. *)
Theorem lru_add_oversized (Len_nonneg : forall v, 0 <= Len v) m ops (c : LRUCache Value) k v e :
  run Len (New m) ops = Some c -> 0 < m ->
  m < Z.of_nat (String.length k) + Len v ->
  exists c', Add Len c k v e = Some c' /\ ll c' = [] /\ curCapacity c' = 0 /\ cache c' = ∅.
Proof.
  intros Hrun Hpos Hbig. destruct (run_wf_any m ops c Hrun) as [Hwf Hm].
  destruct (Add_spec Len c k v e Hwf ltac:(lia))
    as (c' & Hadd & (Hs & Hc & _) & Hb & Hm' & rest & s & Hpre).
  exists c'. split; [exact Hadd|].
  destruct (ll c') as [|x l] eqn:Hl.
  - split; [reflexivity|]. split; [exact Hs|].
    apply leibniz_equiv. intros y. rewrite Hc. split; [|intros Hy; apply elem_of_empty in Hy; contradiction].
    intros Hy. apply not_elem_of_nil in Hy. contradiction.
  - exfalso. simpl in Hpre. injection Hpre as Hx _. subst x.
    simpl in Hs. pose proof (sum_bytes_nonneg Len_nonneg l).
    unfold within_bound in Hb. unfold entry_size in Hs. simpl in Hs.
    specialize (Hb ltac:(lia)). lia.
Qed.

(** X4. On an engine reached from [New m] by public operations, with
    [m >= 0], an [Add(k, v, e)] whose entry fits ([m = 0], or
    [len(k) + v.Len() <= m]) leaves the new entry at the front; the entries
    behind it are the engine's previous entries without [k], in their order,
    of which only the oldest have been evicted. *)
Theorem lru_add_front (Len_nonneg : forall v, 0 <= Len v) m ops (c : LRUCache Value) k v e :
  run Len (New m) ops = Some c -> 0 <= m ->
  (m = 0 \/ Z.of_nat (String.length k) + Len v <= m) ->
  exists c' l s, Add Len c k v e = Some c' /\ ll c' = mkEntry k v e :: l /\
    l ++ s = remove_node k (ll c).
Proof.
  intros Hrun Hm Hfit. destruct (run_wf_any m ops c Hrun) as [Hwf Hmc].
  destruct (Add_unfold c k v e Hwf) as (c1 & Hadd & Hw1 & Hm1 & Hl1).
  destruct (evict_spec Len (S (length (ll c1))) c1 Hw1 ltac:(lia) ltac:(lia))
    as (c' & Hev & _ & _ & _ & s & Hsfx).
  destruct (evict_keeps_front Len_nonneg _ c1 c' (mkEntry k v e) (remove_node k (ll c))
              Hw1 Hl1 ltac:(unfold entry_size; simpl; lia) Hev) as [l Hl].
  exists c', l, s. split; [rewrite Hadd; exact Hev|]. split; [exact Hl|].
  rewrite Hl1, Hl in Hsfx. simpl in Hsfx. injection Hsfx as Hsfx. symmetry. exact Hsfx.
Qed.

(** X5. On an engine built by [New m] with [m < 0] (and reached by any
    public operations), every [Add] loops forever: the loop condition
    [maxBytes != 0 && maxBytes < curBytes] stays true once the list is
    empty, where [RemoveOldest] does nothing. *)
Theorem lru_add_negative_hangs (Len_nonneg : forall v, 0 <= Len v) m ops (c : LRUCache Value) k v e :
  run Len (New m) ops = Some c -> m < 0 -> Add Len c k v e = None.
Proof.
  intros Hrun Hm. destruct (run_wf_any m ops c Hrun) as [Hwf Hmc].
  destruct (Add_unfold c k v e Hwf) as (c1 & Hadd & Hw1 & Hm1 & _).
  rewrite Hadd. apply evict_negative; [exact Len_nonneg|exact Hw1|lia].
Qed.

End Facts.

Lemma lru_get_cases_witness :
  Get blen (default (New 10) (run blen (New 10) [OpAdd "k" (bytes "v") 5])) "k" 3 =
    (mkLRU 10 2 [mkEntry "k" (bytes "v") 5] {["k"]}, Some (bytes "v")).
Proof.
  refine (proj1 (proj2 (lru_get_cases blen 10 [OpAdd "k" (bytes "v") 5] _ "k" 3 _)
                  (mkEntry "k" (bytes "v") 5) _ _) _).
  - vm_compute. reflexivity.
  - vm_compute. left.
  - reflexivity.
  - right. vm_compute. discriminate.
Defined.

Lemma lru_remove_oldest_witness :
  RemoveOldest blen (default (New 10) (run blen (New 10) [OpAdd "a" (bytes "1") 0; OpAdd "b" (bytes "22") 0])) =
    mkLRU 10 (5 - 2) [mkEntry "b" (bytes "22") 0] ({["b"]} ∪ ({["a"]} ∪ ∅) ∖ {["a"]}).
Proof.
  refine (proj1 (proj2 (lru_remove_oldest blen 10 [OpAdd "a" (bytes "1") 0; OpAdd "b" (bytes "22") 0] _ _)
                   [mkEntry "b" (bytes "22") 0] (mkEntry "a" (bytes "1") 0) _)).
  - vm_compute. reflexivity.
  - vm_compute. reflexivity.
Defined.

Lemma lru_add_oversized_witness :
  exists c', Add blen (New 3) "key" (bytes "value") 0 = Some c' /\ ll c' = [] /\
    curCapacity c' = 0 /\ cache c' = ∅.
Proof.
  apply (lru_add_oversized blen (fun v => ltac:(unfold blen; lia)) 3 []).
  - reflexivity.
  - lia.
  - vm_compute. reflexivity.
Defined.

Lemma lru_add_front_witness :
  exists c' l s, Add blen (default (New 10) (run blen (New 10) [OpAdd "a" (bytes "1") 0]))
      "b" (bytes "22") 0 = Some c' /\ ll c' = mkEntry "b" (bytes "22") 0 :: l /\
    l ++ s = remove_node "b" [mkEntry "a" (bytes "1") 0].
Proof.
  apply (lru_add_front blen (fun v => ltac:(unfold blen; lia)) 10 [OpAdd "a" (bytes "1") 0]).
  - vm_compute. reflexivity.
  - lia.
  - right. vm_compute. discriminate.
Defined.

Lemma lru_add_negative_hangs_witness :
  Add blen (New (-1)) "k" (bytes "v") 0 = None.
Proof.
  apply (lru_add_negative_hangs blen (fun v => ltac:(unfold blen; lia)) (-1) []).
  - reflexivity.
  - lia.
Defined.

End LRUExtra.

(** ** Further properties of the consistent-hash ring *)
Module CHashExtra.
Import ConsistentHash CHashSpec.

Lemma replica_hashes_ext (m m' : Map) key :
  hash m' = hash m -> replicas m' = replicas m -> replica_hashes m' key = replica_hashes m key.
Proof. intros Hh Hr. unfold replica_hashes. rewrite Hh, Hr. reflexivity. Qed.

Lemma add_replicas_spec (m : Map) (key : string) (A : list string) :
  hash (add_replicas m key) = hash m /\ replicas (add_replicas m key) = replicas m /\
  ring (add_replicas m key) = ring m ++ replica_hashes m key /\
  (covers m A -> key ∈ A -> covers (add_replicas m key) A).
Proof.
  unfold add_replicas, replica_hashes.
  match goal with |- context [fold_left ?F _ _] =>
    assert (Hf : forall l m0, hash m0 = hash m -> replicas m0 = replicas m ->
      hash (fold_left F l m0) = hash m /\ replicas (fold_left F l m0) = replicas m /\
      ring (fold_left F l m0) = ring m0 ++
        map (fun i => hash m (list_byte_of_string (String.append (itoa i) key))) l /\
      (covers m0 A -> key ∈ A -> covers (fold_left F l m0) A))
  end.
  { induction l as [|i l IH]; intros m0 Hh Hr; cbn [fold_left map].
    - rewrite app_nil_r. auto.
    - match goal with |- context [fold_left _ l ?m1] =>
        destruct (IH m1 Hh Hr) as (H1 & H2 & H3 & H4) end.
      split; [exact H1|]. split; [exact H2|]. split.
      + rewrite H3. cbn [ring]. rewrite Hh, <- app_assoc. reflexivity.
      + intros [Hring Hval] HA. apply H4; [|exact HA]. split.
        * intros h Hin. cbn [ring hashMap] in *. apply elem_of_app in Hin as [Hin|Hin].
          -- destruct (decide (h = hash m0 (list_byte_of_string (String.append (itoa i) key))))
               as [->|Hne]; [eexists; apply lookup_insert_eq|].
             rewrite lookup_insert_ne by congruence. exact (Hring h Hin).
          -- apply list_elem_of_singleton in Hin as ->. eexists; apply lookup_insert_eq.
        * intros h k Hk. cbn [hashMap] in Hk. apply lookup_insert_Some in Hk as [[_ <-]|[_ Hk]].
          -- exact HA.
          -- exact (Hval h k Hk). }
  exact (Hf _ m eq_refl eq_refl).
Qed.

Lemma fold_add_replicas (m : Map) (ks : list string) (A : list string) :
  hash (fold_left add_replicas ks m) = hash m /\
  replicas (fold_left add_replicas ks m) = replicas m /\
  ring (fold_left add_replicas ks m) = ring m ++ concat (map (replica_hashes m) ks) /\
  (covers m A -> (forall k, k ∈ ks -> k ∈ A) -> covers (fold_left add_replicas ks m) A).
Proof.
  assert (Hg : forall m0, hash m0 = hash m -> replicas m0 = replicas m ->
    hash (fold_left add_replicas ks m0) = hash m /\
    replicas (fold_left add_replicas ks m0) = replicas m /\
    ring (fold_left add_replicas ks m0) = ring m0 ++ concat (map (replica_hashes m) ks) /\
    (covers m0 A -> (forall k, k ∈ ks -> k ∈ A) -> covers (fold_left add_replicas ks m0) A)).
  { induction ks as [|k ks IH]; intros m0 Hh Hr; simpl.
    - rewrite app_nil_r. auto.
    - destruct (add_replicas_spec m0 k A) as (H1 & H2 & H3 & H4).
      destruct (IH (add_replicas m0 k) ltac:(congruence) ltac:(congruence))
        as (H5 & H6 & H7 & H8).
      split; [exact H5|]. split; [exact H6|]. split.
      + rewrite H7, H3, (replica_hashes_ext m m0 k Hh Hr), app_assoc. reflexivity.
      + intros Hc HA. apply H8.
        * apply H4; [exact Hc|]. apply HA. apply elem_of_cons. left. reflexivity.
        * intros k' Hk'. apply HA. apply elem_of_cons. right. exact Hk'. }
  exact (Hg m eq_refl eq_refl).
Qed.

Lemma covers_New r fn A : covers (New r fn) A.
Proof.
  split.
  - intros h Hin. apply not_elem_of_nil in Hin. contradiction.
  - intros h k Hk. simpl in Hk. rewrite lookup_empty in Hk. discriminate.
Qed.

Lemma covers_Add (m : Map) (ks : list string) (A : list string) :
  covers m A -> (forall k, k ∈ ks -> k ∈ A) -> covers (Add m ks) A.
Proof.
  intros Hc HA. destruct (fold_add_replicas m ks A) as (_ & _ & _ & H).
  destruct (H Hc HA) as [Hring Hval]. split; [|exact Hval].
  intros h Hin. apply Hring. cbn [ring Add] in Hin.
  apply list_elem_of_In in Hin. apply list_elem_of_In.
  eapply Permutation_in; [apply (merge_sort_Permutation Z.le)|exact Hin].
Qed.

Lemma covers_Get (m : Map) (A : list string) key :
  covers m A -> ring m <> [] -> Get m key ∈ A.
Proof.
  intros [Hring Hval] Hne. unfold Get.
  destruct (ring m) as [|x l] eqn:Hr; [contradiction|].
  rewrite <- Hr. rewrite <- Hr in Hring.
  match goal with |- context [nth (?i mod ?n) (ring m) 0%Z] =>
    assert (Hin : nth (i mod n) (ring m) 0%Z ∈ ring m)
      by (apply list_elem_of_In, nth_In, Nat.mod_upper_bound; rewrite Hr; simpl; lia) end.
  destruct (Hring _ Hin) as [k Hk]. rewrite Hk. exact (Hval _ _ Hk).
Qed.

(** X6. [Add(keys...)] puts on the ring exactly [replicas] virtual nodes
    per key, the hashes [hash(strconv.Itoa(i) + key)] for [0 <= i <
    replicas] (none when [replicas <= 0]), keeps the old nodes and
    duplicates, and leaves the ring sorted; the hash function and the number
    of replicas do not change. *)
Theorem chash_add_ring (m : Map) (ks : list string) :
  ring (Add m ks) ≡ₚ ring m ++ concat (map (replica_hashes m) ks) /\
  StronglySorted Z.le (ring (Add m ks)) /\
  hash (Add m ks) = hash m /\ replicas (Add m ks) = replicas m.
Proof.
  destruct (fold_add_replicas m ks []) as (H1 & H2 & H3 & _).
  split; [|split; [|split]].
  - cbn [ring Add]. rewrite <- H3. apply merge_sort_Permutation.
  - cbn [ring Add]. apply StronglySorted_merge_sort.
    + intros x y z Hxy Hyz. lia.
    + intros x y. lia.
  - exact H1.
  - exact H2.
Qed.

(** X7. On a ring built by [New] and [Add] calls, [Get] on a nonempty
    ring always returns one of the real nodes that were added. *)
Theorem chash_get_added_node r fn (batches : list (list string)) key :
  ring (fold_left Add batches (New r fn)) <> [] ->
  Get (fold_left Add batches (New r fn)) key ∈ concat batches.
Proof.
  intros Hne. apply covers_Get; [|exact Hne].
  assert (Hg : forall m done, covers m (concat done) ->
    covers (fold_left Add batches m) (concat (done ++ batches))).
  { clear Hne. induction batches as [|ks bs IH]; intros m done Hc; simpl.
    - rewrite app_nil_r. exact Hc.
    - replace (done ++ ks :: bs) with ((done ++ [ks]) ++ bs) by (rewrite <- app_assoc; reflexivity).
      apply IH. apply covers_Add.
      + destruct Hc as [Hr Hv]. split; [exact Hr|].
        intros h k Hk. rewrite concat_app. apply elem_of_app. left. exact (Hv h k Hk).
      + intros k Hk. rewrite concat_app. apply elem_of_app. right. simpl.
        rewrite app_nil_r. exact Hk. }
  exact (Hg (New r fn) [] (covers_New r fn [])).
Qed.

Lemma chash_get_added_node_witness :
  Get (fold_left Add [["6"; "4"; "2"]] (New 1 (Some identity_hash))) "3" ∈ ["6"; "4"; "2"].
Proof.
  apply (chash_get_added_node 1 (Some identity_hash) [["6"; "4"; "2"]] "3").
  vm_compute. discriminate.
Defined.

End CHashExtra.

(** ** Progress and termination of the single-flight coalescer *)
Module SFExtra.
Import SingleFlight SingleFlightSpec SFFacts.

Section Facts.
Context {R : Type} (fn : nat -> R).

Lemma live_init N : live (R:=R) (init N).
Proof.
  constructor; simpl.
  - intros c Hc. rewrite lookup_nil in Hc. discriminate.
  - intros i c Hi. apply lookup_replicate in Hi as [Hi _]. discriminate.
Qed.

(** A running leader is kept by the step of another thread. *)
Lemma run_frame (l : list (phase R)) i p x j c :
  l !! i = Some p -> p <> Run c -> l !! j = Some (Run c) -> <[i := x]> l !! j = Some (Run c).
Proof.
  intros Hi Hp Hj. rewrite list_lookup_insert_ne; [exact Hj|].
  intros ->. rewrite Hi in Hj. injection Hj as Hj. contradiction.
Qed.

Lemma step_live i (s s' : state R) : inv s -> live s -> step fn i s s' -> live s'.
Proof.
  intros Hv [Hrun Hwait] Hs. destruct Hs as [i s c Hi Hm|i s Hi Hm|i s c Hi|i s c r Hi Hc|i s c r Hi Hc];
    constructor; simpl.
  - intros c' Hc'. destruct (Hrun c' Hc') as [j Hj]. exists j.
    apply (run_frame _ i Start); [exact Hi|discriminate|exact Hj].
  - intros j c' Hj. apply ins_Some in Hj as [[ -> He]|[_ Hj]]; [|exact (Hwait _ _ Hj)].
    injection He as <-. apply (inv_m _ Hv) in Hm as (j' & p & Hj' & [ -> | -> ]).
    + exact (lookup_lt_Some _ _ _ (inv_run _ Hv _ _ Hj')).
    + destruct (inv_done _ Hv _ _ Hj') as [r Hr]. exact (lookup_lt_Some _ _ _ Hr).
  - intros c' Hc'. apply lookup_app_Some in Hc' as [Hc'|[Hle Hc']].
    + destruct (Hrun c' Hc') as [j Hj]. exists j.
      apply (run_frame _ i Start); [exact Hi|discriminate|exact Hj].
    + apply list_lookup_singleton_Some in Hc' as [Hz _].
      replace c' with (length (calls s)) by lia. exists i. exact (ins_self _ _ _ _ Hi).
  - intros j c' Hj. apply ins_Some in Hj as [[_ He]|[_ Hj]]; [discriminate|].
    rewrite length_app. simpl. pose proof (Hwait _ _ Hj). lia.
  - intros c' Hc'. apply list_lookup_insert_Some in Hc' as [(_ & He & _)|[Hne Hc']];
      [discriminate|].
    destruct (Hrun c' Hc') as [j Hj]. exists j.
    apply (run_frame _ i (Run c)); [exact Hi|congruence|exact Hj].
  - intros j c' Hj. apply ins_Some in Hj as [[_ He]|[_ Hj]]; [discriminate|].
    rewrite length_insert. exact (Hwait _ _ Hj).
  - intros c' Hc'. destruct (Hrun c' Hc') as [j Hj]. exists j.
    apply (run_frame _ i (Done c)); [exact Hi|discriminate|exact Hj].
  - intros j c' Hj. apply ins_Some in Hj as [[_ He]|[_ Hj]]; [discriminate|].
    exact (Hwait _ _ Hj).
  - intros c' Hc'. destruct (Hrun c' Hc') as [j Hj]. exists j.
    apply (run_frame _ i (Wait c)); [exact Hi|discriminate|exact Hj].
  - intros j c' Hj. apply ins_Some in Hj as [[_ He]|[_ Hj]]; [discriminate|].
    exact (Hwait _ _ Hj).
Qed.

Lemma reachable_live N (s : state R) : reachable fn N s -> live s.
Proof.
  unfold reachable. intros Hr. remember (init N) as s0 eqn:Hs0.
  assert (H0 : inv s0 /\ live s0) by (subst; split; [apply inv_init|apply live_init]).
  clear Hs0. induction Hr as [s0|s0 s1 s2 [i Hst] Hr IH]; [exact (proj2 H0)|].
  destruct H0 as [Hv Hl]. apply IH. split.
  - exact (step_inv fn i _ _ Hv Hst).
  - exact (step_live i _ _ Hv Hl Hst).
Qed.

Lemma measure_insert (l : list (phase R)) i p q :
  l !! i = Some p ->
  sum_list_with weight (<[i := q]> l) + weight p = sum_list_with weight l + weight q.
Proof.
  revert i. induction l as [|x l IH]; intros i Hi; [discriminate|].
  destruct i as [|i]; simpl in *.
  - injection Hi as ->. lia.
  - specialize (IH i Hi). lia.
Qed.

Lemma step_measure i (s s' : state R) : step fn i s s' -> measure s' < measure s.
Proof.
  unfold measure. intros Hs.
  destruct Hs as [i s c Hi Hm|i s Hi Hm|i s c Hi|i s c r Hi Hc|i s c r Hi Hc]; simpl;
    match goal with H : ths _ !! _ = Some ?p |- context [<[_ := ?q]> _] =>
      pose proof (measure_insert _ _ p q H) as Hw end; simpl in Hw; lia.
Qed.

Lemma measure_init N : measure (R:=R) (init N) = 3 * N.
Proof.
  unfold measure, init. simpl. induction N as [|N IH]; simpl; [reflexivity|].
  rewrite IH. lia.
Qed.

(** X8. No deadlock: in every state reachable from [N] concurrent calls
    of [Do(key, fn)], either every caller has returned or some caller can
    take a step (a waiter's record is either filled or has its leader
    running [fn]). *)
Theorem singleflight_no_deadlock N (s : state R) :
  reachable fn N s ->
  (forall i p, ths s !! i = Some p -> exists l c r, p = Ret l c r) \/
  exists s', any_step fn s s'.
Proof.
  intros Hr. pose proof (reachable_inv fn N s Hr) as Hv.
  destruct (reachable_live N s Hr) as [Hrun Hwait].
  assert (Hth : forall i p, ths s !! i = Some p ->
            (exists l c r, p = Ret l c r) \/ exists s', any_step fn s s').
  { intros i p Hi. destruct p as [|c|c|c|l c r].
    - right. destruct (m s) as [c|] eqn:Hm.
      + eexists. exists i. apply step_join; eassumption.
      + eexists. exists i. apply step_install; eassumption.
    - right. destruct (lookup_lt_is_Some_2 (calls s) c (Hwait i c Hi)) as [[r|] Hc].
      + eexists. exists i. eapply step_wake; eassumption.
      + destruct (Hrun c Hc) as [j Hj]. eexists. exists j. apply step_fn. exact Hj.
    - right. eexists. exists i. apply step_fn. exact Hi.
    - right. destruct (inv_done _ Hv _ _ Hi) as [r Hc].
      eexists. exists i. eapply step_delete; eassumption.
    - left. eauto. }
  assert (Hk : forall k, (forall i p, i < k -> ths s !! i = Some p -> exists l c r, p = Ret l c r)
                        \/ exists s', any_step fn s s').
  { induction k as [|k [IH|IH]]; [left; intros; lia| |right; exact IH].
    destruct (ths s !! k) as [p|] eqn:Hp.
    - destruct (Hth k p Hp) as [Hret|Hst]; [|right; exact Hst].
      left. intros i p' Hi Hi'. destruct (decide (i = k)) as [->|Hne].
      + rewrite Hp in Hi'. injection Hi' as <-. exact Hret.
      + apply (IH i p'); [lia|exact Hi'].
    - left. intros i p' Hi Hi'. destruct (decide (i = k)) as [->|Hne]; [congruence|].
      apply (IH i p'); [lia|exact Hi']. }
  destruct (Hk (length (ths s))) as [Hall|Hst]; [left|right; exact Hst].
  intros i p Hi. apply (Hall i p); [exact (lookup_lt_Some _ _ _ Hi)|exact Hi].
Qed.

(** X9. Termination: every execution of [N] concurrent calls of
    [Do(key, fn)] takes at most [3 * N] atomic steps; each caller takes at
    most three (install, run [fn], delete) and a waiter two. *)
Theorem singleflight_bounded_steps N n (s : state R) :
  nsteps (any_step fn) n (init N) s -> n <= 3 * N.
Proof.
  intros Hn. rewrite <- (measure_init N).
  assert (Hg : forall s0, nsteps (any_step fn) n s0 s -> n + measure s <= measure s0).
  { clear Hn. induction n as [|n IH]; intros s0 Hs0.
    - inversion Hs0; subst. lia.
    - inversion Hs0 as [|n' x y z [i Hst] Hrest]; subst.
      pose proof (step_measure i _ _ Hst). specialize (IH _ Hrest). lia. }
  specialize (Hg _ Hn). lia.
Qed.

End Facts.

Lemma singleflight_no_deadlock_witness :
  reachable (fun n : nat => n) 2 sequential_trace_end /\
  Forall (fun p => exists l c r, p = Ret l c r) (ths sequential_trace_end).
Proof.
  split; [exact sequential_trace_reachable|].
  destruct (singleflight_no_deadlock (fun n : nat => n) 2 sequential_trace_end
              sequential_trace_reachable) as [H|[s' [i Hs]]];
    [apply Forall_lookup; exact H|].
  exfalso. inversion Hs; subst; simpl in *;
    repeat match goal with H : [_; _] !! ?i = Some _ |- _ =>
      destruct i as [|[|?]]; simpl in H; try discriminate; clear H end.
Defined.

Lemma singleflight_bounded_steps_witness : 6 <= 3 * 2.
Proof.
  apply (singleflight_bounded_steps (fun n : nat => n) 2 6 sequential_trace_end).
  eapply nsteps_l; [exists 0; apply step_install; reflexivity|].
  eapply nsteps_l; [exists 0; apply step_fn; reflexivity|].
  eapply nsteps_l; [exists 0; eapply step_delete; reflexivity|].
  eapply nsteps_l; [exists 1; apply step_install; reflexivity|].
  eapply nsteps_l; [exists 1; apply step_fn; reflexivity|].
  eapply nsteps_l; [exists 1; eapply step_delete; reflexivity|].
  apply nsteps_O.
Defined.

End SFExtra.

(** ** Further properties of the Group read path *)
Module GroupExtra.
Import GroupModel.
Local Open Scope Z_scope.

Lemma contents_make (mem : Mem) bs :
  contents (fst (make mem bs)) (snd (make mem bs)) = bs.
Proof.
  unfold contents, make. simpl. rewrite lookup_insert_eq. simpl. apply take_ge. lia.
Qed.

(** An entry that fits the capacity of a fresh LRU shell stays, and is
    found by [get] at any instant. *)
Lemma lru_fresh_fits (cb : Z) key (v : ByteView) :
  0 <= cb -> (cb = 0 \/ Z.of_nat (String.length key) + Len v <= cb) -> Expire v = 0 ->
  exists L, lru_add (mkLRUcache None cb) key v = Ok (mkLRUcache (Some L) cb) /\
    forall now, lru_get (mkLRUcache (Some L) cb) key now = (mkLRUcache (Some L) cb, Some v).
Proof.
  intros Hcb Hfit He. unfold lru_add. simpl. unfold LRU.Add, LRU.lookup_node.
  rewrite decide_False by set_solver. simpl.
  rewrite He.
  replace (negb (cb =? 0) && (cb <? 0 + (Z.of_nat (String.length key) + Len v))) with false
    by (symmetry; apply andb_false_iff; destruct Hfit as [->|Hfit];
        [left; reflexivity|right; apply Z.ltb_ge; lia]).
  eexists. split; [reflexivity|]. intros now.
  unfold lru_get, LRU.Get, LRU.lookup_node. simpl.
  rewrite decide_True by set_solver. simpl. rewrite String.eqb_refl. reflexivity.
Qed.

(** An entry larger than a positive capacity leaves a fresh LRU shell
    empty, and [get] misses on it without changing it. *)
Lemma lru_fresh_oversized (cb : Z) key (v : ByteView) :
  0 < cb -> cb < Z.of_nat (String.length key) + Len v ->
  exists L, lru_add (mkLRUcache None cb) key v = Ok (mkLRUcache (Some L) cb) /\
    forall now, lru_get (mkLRUcache (Some L) cb) key now = (mkLRUcache (Some L) cb, None).
Proof.
  intros Hcb Hbig. unfold lru_add. simpl. unfold LRU.Add, LRU.lookup_node.
  rewrite decide_False by set_solver. simpl.
  replace (negb (cb =? 0) && (cb <? 0 + (Z.of_nat (String.length key) + Len v))) with true
    by (symmetry; apply andb_true_intro; split;
        [apply negb_true_iff, Z.eqb_neq; lia|apply Z.ltb_lt; lia]).
  unfold LRU.RemoveOldest. simpl. unfold LRU.removeElement. simpl.
  rewrite String.eqb_refl. unfold LRU.entry_size. simpl.
  replace (negb (cb =? 0) && (cb <? 0 + (Z.of_nat (String.length key) + Len v) -
             (Z.of_nat (String.length key) + Len v))) with false
    by (symmetry; apply andb_false_iff; right; apply Z.ltb_ge; lia).
  eexists. split; [reflexivity|]. intros now.
  unfold lru_get, LRU.Get, LRU.lookup_node. simpl.
  rewrite decide_False by set_solver. reflexivity.
Qed.
Section Facts.
Context {LFUcache : Type} (lfu_new : Z -> LFUcache)
  (lfu_add : LFUcache -> string -> ByteView -> res LFUcache)
  (lfu_get : LFUcache -> string -> Z -> LFUcache * option ByteView)
  (etcdNew : option string).

(** The first [GetCacheData(key)] on a fresh ["lru"] group without peers
    runs the loader and stores the view it returns in both caches; the view
    is a clone, which a write through the loader's slice leaves as it is. *)
Lemma first_load (groups groups' : gmap string (Group LFUcache)) gname cb gt g mem key bs now :
  NewGroup lfu_new groups gname cb "lru" (Some gt) = Ok (groups', g) ->
  key <> "" -> gt key = inr bs -> 0 <= cb ->
  exists mem1 v mc hc,
    lru_add (mkLRUcache None cb) key v = Ok mc /\ lru_add (mkLRUcache None cb) key v = Ok hc /\
    GetCacheData lfu_add lfu_get etcdNew g mem key now =
      Ok (mkGroup gname gt (CacheLRU mc) (CacheLRU hc) None ∅, mem1, inr v) /\
    contents mem1 (b v) = bs /\ Len v = Z.of_nat (length bs) /\ Expire v = 0 /\
    forall i x mem2, store mem1 (mkSlice (next mem) (length bs)) i x = Ok mem2 ->
      contents mem2 (b v) = bs.
Proof.
  intros Hg Hk Hgt Hcb. unfold NewGroup in Hg. simpl in Hg. injection Hg as _ <-.
  unfold GetCacheData. rewrite (proj2 (String.eqb_neq key "") Hk). simpl.
  unfold load. simpl. unfold getLocally. simpl. rewrite Hgt.
  pose proof (contents_make mem bs) as Hc. simpl in Hc. rewrite Hc.
  set (v := mkView (mkSlice (S (next mem)) (length bs)) 0).
  destruct (LRUFacts.Add_spec Len (LRU.New cb) key v (Expire v) (LRUFacts.New_wf Len cb) Hcb)
    as (L & HL & _).
  assert (Ha : lru_add (mkLRUcache None cb) key v = Ok (mkLRUcache (Some L) cb))
    by (unfold lru_add; cbn [default lru cacheBytes]; rewrite HL; reflexivity).
  cbn [cache_add bind]. rewrite Ha. cbn [bind].
  exists (mkMem (<[S (next mem) := bs]> (<[next mem := bs]> (heap mem))) (S (S (next mem)))), v,
    (mkLRUcache (Some L) cb), (mkLRUcache (Some L) cb).
  split; [exact Ha|]. split; [exact Ha|]. split; [reflexivity|].
  split; [|split; [reflexivity|split; [reflexivity|]]].
  - unfold contents. simpl. rewrite lookup_insert_eq. simpl. apply take_ge. lia.
  - intros i x mem2 Hs. unfold store in Hs. cbn [heap sptr slen] in Hs.
    rewrite lookup_insert_ne in Hs by lia. rewrite lookup_insert_eq in Hs.
    destruct (Nat.ltb i (length bs)); [|discriminate].
    injection Hs as <-. unfold contents. cbn [heap sptr slen b v].
    rewrite lookup_insert_ne by lia. rewrite lookup_insert_eq. cbn [default].
    apply take_ge. lia.
Qed.

(** X10. On a fresh ["lru"] group built by [NewGroup] with [cacheBytes >= 0]
    and no peers, a [GetCacheData(key)] that the loader answers with [bs],
    when the entry fits ([cacheBytes = 0], or [len(key) + len(bs) <=
    cacheBytes]), returns a copy of [bs]: a view holding [bs] that keeps
    them whatever is written through the loader's slice. The next
    [GetCacheData(key)], at any instant, is answered by the hot cache with
    the same view and leaves the group and the heap unchanged. *)
Theorem local_load_then_hot_hit (groups groups' : gmap string (Group LFUcache)) gname cb gt g
  mem key bs now now' :
  NewGroup lfu_new groups gname cb "lru" (Some gt) = Ok (groups', g) ->
  key <> "" -> gt key = inr bs -> 0 <= cb ->
  (cb = 0 \/ Z.of_nat (String.length key + length bs) <= cb) ->
  exists g1 mem1 v,
    GetCacheData lfu_add lfu_get etcdNew g mem key now = Ok (g1, mem1, inr v) /\
    contents mem1 (b v) = bs /\
    (forall i x mem2, store mem1 (mkSlice (next mem) (length bs)) i x = Ok mem2 ->
       contents mem2 (b v) = bs) /\
    GetCacheData lfu_add lfu_get etcdNew g1 mem1 key now' = Ok (g1, mem1, inr v).
Proof.
  intros Hg Hk Hgt Hcb Hfit.
  destruct (first_load _ _ _ _ _ _ mem key bs now Hg Hk Hgt Hcb)
    as (mem1 & v & mc & hc & Hmc & Hhc & Hget & Hcont & Hlen & He & Hiso).
  destruct (lru_fresh_fits cb key v Hcb ltac:(rewrite Hlen; lia) He) as (L & HL & Hhit).
  rewrite HL in Hmc, Hhc. injection Hmc as <-. injection Hhc as <-.
  eexists _, mem1, v. split; [exact Hget|]. split; [exact Hcont|]. split; [exact Hiso|].
  unfold GetCacheData. rewrite (proj2 (String.eqb_neq key "") Hk).
  cbn [hotCache cache_get bind]. rewrite Hhit. reflexivity.
Qed.

(** X11. On a fresh ["lru"] group built by [NewGroup] with
    [cacheBytes > 0] and no peers, a value with [len(key) + len(bs) >
    cacheBytes] is returned by [GetCacheData(key)] but kept by neither
    cache: the next [GetCacheData(key)] misses both caches and goes back to
    [load]. *)
Theorem oversized_value_not_cached (groups groups' : gmap string (Group LFUcache)) gname cb gt g
  mem key bs now now' :
  NewGroup lfu_new groups gname cb "lru" (Some gt) = Ok (groups', g) ->
  key <> "" -> gt key = inr bs -> 0 < cb ->
  cb < Z.of_nat (String.length key + length bs) ->
  exists g1 mem1 v,
    GetCacheData lfu_add lfu_get etcdNew g mem key now = Ok (g1, mem1, inr v) /\
    contents mem1 (b v) = bs /\
    GetCacheData lfu_add lfu_get etcdNew g1 mem1 key now' = load lfu_add etcdNew g1 mem1 key now'.
Proof.
  intros Hg Hk Hgt Hcb Hbig.
  destruct (first_load _ _ _ _ _ _ mem key bs now Hg Hk Hgt ltac:(lia))
    as (mem1 & v & mc & hc & Hmc & Hhc & Hget & Hcont & Hlen & He & _).
  destruct (lru_fresh_oversized cb key v Hcb ltac:(rewrite Hlen; lia)) as (L & HL & Hmiss).
  rewrite HL in Hmc, Hhc. injection Hmc as <-. injection Hhc as <-.
  eexists _, mem1, v. split; [exact Hget|]. split; [exact Hcont|].
  unfold GetCacheData. rewrite (proj2 (String.eqb_neq key "") Hk).
  cbn [hotCache mainCache cache_get bind]. rewrite Hmiss.
  cbn [bind set_hot set_main mainCache hotCache cache_get]. rewrite Hmiss. reflexivity.
Qed.

End Facts.

(** X12. [v.ByteSlice()] returns a copy: it holds the view's bytes, it
    leaves the view's bytes unchanged, and a later write into the copy does
    not change what [v.String()] returns. The copy is a fresh array: the
    heap has nothing at its next address. *)
Theorem byteslice_is_copy (mem : Mem) (v : ByteView) mem1 s :
  heap mem !! next mem = None ->
  ByteSlice mem v = (mem1, s) ->
  contents mem1 s = contents mem (b v) /\ String mem1 v = String mem v /\
  forall i x mem2, store mem1 s i x = Ok mem2 -> String mem2 v = String mem v.
Proof.
  intros Hfresh Hbs. unfold ByteSlice, cloneBytes, make in Hbs. injection Hbs as <- <-.
  set (cont := contents mem (b v)).
  assert (Hsame : forall h : gmap nat (list Byte.byte), (sptr (b v) = next mem -> cont = []) ->
            h !! sptr (b v) = (<[next mem := cont]> (heap mem)) !! sptr (b v) ->
            take (slen (b v)) (default [] (h !! sptr (b v))) = cont).
  { intros h Hempty Hh. rewrite Hh.
    destruct (decide (sptr (b v) = next mem)) as [Heq|Hne].
    - rewrite Heq, lookup_insert_eq. simpl. rewrite (Hempty Heq). apply take_nil.
    - rewrite lookup_insert_ne by congruence. reflexivity. }
  assert (Hempty : sptr (b v) = next mem -> cont = []).
  { intros Heq. unfold cont, contents. rewrite Heq, Hfresh. apply take_nil. }
  split; [|split].
  - unfold contents. simpl. rewrite lookup_insert_eq. simpl. apply take_ge. lia.
  - unfold String. f_equal. apply Hsame; [exact Hempty|reflexivity].
  - intros i x mem2 Hst. unfold store in Hst. simpl in Hst. rewrite lookup_insert_eq in Hst.
    destruct (Nat.ltb_spec i (length cont)) as [Hi|Hi]; [|discriminate].
    injection Hst as <-. unfold String. f_equal. simpl. apply Hsame; [exact Hempty|].
    destruct (decide (sptr (b v) = next mem)) as [Heq|Hne].
    + exfalso. rewrite (Hempty Heq) in Hi. simpl in Hi. lia.
    + cbn [heap]. rewrite !lookup_insert_ne by congruence. reflexivity.
Qed.

Lemma local_load_then_hot_hit_witness :
  exists g1 mem1 v,
    GetCacheData S6.no_lfu_add S6.no_lfu_get None S6.tom_group (mkMem ∅ 0) "Tom" 0 =
      Ok (g1, mem1, inr v) /\
    contents mem1 (b v) = bytes "630" /\
    (forall i x mem2, store mem1 (mkSlice 0 3) i x = Ok mem2 -> contents mem2 (b v) = bytes "630") /\
    GetCacheData S6.no_lfu_add S6.no_lfu_get None g1 mem1 "Tom" 100 = Ok (g1, mem1, inr v).
Proof.
  apply (local_load_then_hot_hit S6.no_lfu_new S6.no_lfu_add S6.no_lfu_get None ∅ {["scores" := S6.tom_group]}
           "scores" 2048 S6.db_loader).
  - reflexivity.
  - discriminate.
  - reflexivity.
  - lia.
  - right. vm_compute. discriminate.
Defined.

Lemma oversized_value_not_cached_witness :
  exists g1 mem1 v,
    GetCacheData S6.no_lfu_add S6.no_lfu_get None
      (mkGroup "small" S6.db_loader (CacheLRU (mkLRUcache None 4))
               (CacheLRU (mkLRUcache None 4)) None ∅ : Group unit)
      (mkMem ∅ 0) "Tom" 0 = Ok (g1, mem1, inr v) /\
    contents mem1 (b v) = bytes "630" /\
    GetCacheData S6.no_lfu_add S6.no_lfu_get None g1 mem1 "Tom" 100 =
      load S6.no_lfu_add None g1 mem1 "Tom" 100.
Proof.
  apply (oversized_value_not_cached S6.no_lfu_new S6.no_lfu_add S6.no_lfu_get None ∅
           {["small" := mkGroup "small" S6.db_loader (CacheLRU (mkLRUcache None 4))
                          (CacheLRU (mkLRUcache None 4)) None ∅]}
           "small" 4 S6.db_loader).
  - reflexivity.
  - discriminate.
  - reflexivity.
  - lia.
  - vm_compute. reflexivity.
Defined.

Lemma byteslice_is_copy_witness :
  contents (fst (ByteSlice (mkMem {[0%nat := bytes "abc"]} 1) (mkView (mkSlice 0 3) 0)))
           (snd (ByteSlice (mkMem {[0%nat := bytes "abc"]} 1) (mkView (mkSlice 0 3) 0))) =
  bytes "abc".
Proof.
  refine (proj1 (byteslice_is_copy (mkMem {[0%nat := bytes "abc"]} 1) (mkView (mkSlice 0 3) 0)
                   _ _ _ _)).
  - reflexivity.
  - reflexivity.
Defined.

End GroupExtra.

(** ** Further properties of the server's peer picker *)
Module ServerExtra.
Import ServerModel ConsistentHash CHashSpec CHashExtra ServerSpec ServerFacts.

Lemma covers_mono (m : Map) (A B : list string) :
  covers m A -> (forall k, k ∈ A -> k ∈ B) -> covers m B.
Proof. intros [Hr Hv] HAB. split; [exact Hr|]. intros h k Hk. exact (HAB _ (Hv h k Hk)). Qed.

Lemma fold_clients (l : list string) (cl : gmap string Client) a :
  (cl !! a = Some (NewClient (String.append "gocache/" a)) \/ a ∈ l) ->
  fold_left (fun cl a => <[a := NewClient (String.append "gocache/" a)]> cl) l cl !! a =
    Some (NewClient (String.append "gocache/" a)).
Proof.
  revert cl. induction l as [|x l IH]; intros cl Ha; simpl.
  - destruct Ha as [Ha|Ha]; [exact Ha|apply not_elem_of_nil in Ha; contradiction].
  - apply IH. destruct (decide (a = x)) as [->|Hne].
    + left. apply lookup_insert_eq.
    + destruct Ha as [Ha|Ha].
      * left. rewrite lookup_insert_ne by congruence. exact Ha.
      * apply elem_of_cons in Ha as [Ha|Ha]; [contradiction|right; exact Ha].
Qed.

Lemma SetPeers_set_inv self0 A s ks s' :
  set_inv self0 A s -> SetPeers s ks = Ok s' -> set_inv self0 (A ++ ks) s'.
Proof.
  intros (Hself & m & cl & Hp & Hc & Hr & Hcov & Hcl & Hne) H. unfold SetPeers in H.
  rewrite Hp, Hc in H.
  destruct (Add_ring_length m ks) as [Hlen Hr'].
  assert (Hcov' : covers (Add m ks) (A ++ ks)).
  { apply covers_Add.
    - apply (covers_mono _ A); [exact Hcov|]. intros k Hk. apply elem_of_app. left. exact Hk.
    - intros k Hk. apply elem_of_app. right. exact Hk. }
  destruct ks as [|k ks].
  - injection H as <-. split; [exact Hself|].
    exists (Add m []), cl. split; [reflexivity|]. split; [reflexivity|].
    split; [congruence|]. split; [exact Hcov'|]. split.
    + intros a Ha. rewrite app_nil_r in Ha. exact (Hcl a Ha).
    + intros HA Hring. rewrite app_nil_r in HA. apply (Hne HA).
      apply length_zero_iff_nil. rewrite Hring in Hlen. simpl in Hlen. lia.
  - injection H as <-. split; [exact Hself|].
    eexists _, _. split; [reflexivity|]. split; [reflexivity|].
    split; [congruence|]. split; [exact Hcov'|]. split.
    + intros a Ha. apply (fold_clients (k :: ks)). apply elem_of_app in Ha as [Ha|Ha].
      * left. exact (Hcl a Ha).
      * right. exact Ha.
    + intros _ Hring. rewrite Hring, Hr in Hlen. simpl in Hlen.
      unfold defaultReplicas in Hlen. simpl in Hlen. lia.
Qed.

Lemma SetAll_set_inv self0 A s calls s' :
  set_inv self0 A s -> SetAll s calls = Ok s' -> set_inv self0 (A ++ concat calls) s'.
Proof.
  revert A s. induction calls as [|c cs IH]; intros A s Hs H; simpl in H.
  - injection H as <-. rewrite app_nil_r. exact Hs.
  - destruct (SetPeers s c) as [s1| |] eqn:E; try discriminate.
    simpl. rewrite app_assoc. eapply IH; [eapply SetPeers_set_inv; eassumption|exact H].
Qed.

(** X13. On a server built by [NewServer(self)] and [Set] calls that
    registered at least one address, [PickPeer(key)] never panics and never
    answers a nil client with [ok = true]: either the ring picks [self] and
    it answers [(nil, false)], or it picks a registered address [a] other
    than [self] and answers the client [Set] made for it, with base URL
    ["gocache/" + a], and [ok = true]. *)
Theorem pickpeer_after_set self0 calls s key :
  SetAll (NewServer self0) calls = Ok s -> concat calls <> [] ->
  PickPeer s key = Ok (None, false) \/
  exists a, a ∈ concat calls /\ a <> self0 /\
    PickPeer s key = Ok (Some (NewClient (String.append "gocache/" a)), true).
Proof.
  intros Hs HA.
  assert (H0 : set_inv self0 [] (NewServer self0)).
  { split; [reflexivity|]. do 2 eexists. split; [reflexivity|]. split; [reflexivity|].
    split; [reflexivity|]. split; [apply covers_New|]. split.
    - intros a Ha. apply not_elem_of_nil in Ha. contradiction.
    - intros H. contradiction. }
  destruct (SetAll_set_inv self0 [] _ calls s H0 Hs)
    as (Hself & m & cl & Hp & Hc & _ & Hcov & Hcl & Hne).
  simpl in *. unfold PickPeer. rewrite Hp, Hc, Hself.
  pose proof (covers_Get m _ key Hcov (Hne HA)) as Hin.
  destruct (String.eqb_spec (Get m key) self0) as [Heq|Hneq]; [left; reflexivity|].
  right. exists (Get m key). split; [exact Hin|]. split; [exact Hneq|].
  rewrite (Hcl _ Hin). reflexivity.
Qed.

(** X14. [Stop] blocks forever on a server whose lock was never released;
    on a stopped server it does nothing. On a running server it marks it
    stopped and drops the ring and the clients, after which [PickPeer] and
    [Set] panic on the nil ring. A new [Start] does not repair it: if it
    releases the lock, [PickPeer] still panics on the nil ring; if it fails
    to listen, it keeps the lock and [PickPeer] and [Stop] block forever. *)
Theorem stop_drops_ring (n : ServerMu) :
  (mu n = true -> StopM n = Hang) /\
  (mu n = false -> status (srv n) = false -> StopM n = Ok n) /\
  (mu n = false -> status (srv n) = true ->
     exists n', StopM n = Ok n' /\ mu n' = false /\ status (srv n') = false /\
     (forall key, PickPeerM n' key =
                  Panic "invalid memory address or nil pointer dereference") /\
     (forall addrs, SetM n' addrs =
                    Panic "invalid memory address or nil pointer dereference") /\
     (forall listen serve n'' err, Start n' listen serve = Ok (n'', err) ->
        forall key,
        (mu n'' = false /\
         PickPeerM n'' key = Panic "invalid memory address or nil pointer dereference") \/
        (mu n'' = true /\ (exists e, err = Some (String.append "failed to listen: " e)) /\
         PickPeerM n'' key = Hang /\ StopM n'' = Hang))).
Proof.
  destruct n as [s m]. cbn [mu srv]. split; [intros ->; reflexivity|]. split.
  - intros -> Hs. unfold StopM, lock, Stop. cbn [mu srv]. rewrite Hs. reflexivity.
  - intros -> Hs. exists (mkServerMu (Stop s) false). split; [reflexivity|].
    unfold Stop. rewrite Hs. cbn.
    split; [reflexivity|]. split; [reflexivity|]. split; [reflexivity|].
    split; [reflexivity|].
    intros listen serve n'' err H key. unfold Start, lock in H.
    cbn [mu srv status self] in H.
    repeat case_match; simplify_eq;
      first [ left; split; reflexivity
            | right; split; [reflexivity|]; split; [eauto|]; split; reflexivity ].
Qed.

(** X15. [Start] on a stopped server whose [net.Listen] fails returns the
    error ["failed to listen: ..."] with the server marked running and its
    lock still held: every later [Start], [Set], [PickPeer] and [Stop] on it
    blocks forever. *)
Theorem start_listen_failure_locks (n : ServerMu) listen serve port e :
  mu n = false -> status (srv n) = false ->
  nth_error (split_colon (self (srv n))) 1 = Some port -> listen port = Some e ->
  exists n', Start n listen serve = Ok (n', Some (String.append "failed to listen: " e)) /\
    status (srv n') = true /\
    (forall listen' serve', Start n' listen' serve' = Hang) /\
    (forall addrs, SetM n' addrs = Hang) /\
    (forall key, PickPeerM n' key = Hang) /\
    StopM n' = Hang.
Proof.
  destruct n as [s m]. cbn [mu srv]. intros -> Hs Hp Hl.
  eexists. split.
  - unfold Start, lock. cbn [mu srv]. rewrite Hs, Hp, Hl. reflexivity.
  - repeat split.
Qed.

Lemma pickpeer_after_set_witness :
  exists s, SetAll (NewServer "a:1") [["a:1"; "b:2"]] = Ok s /\
    (PickPeer s "Tom" = Ok (None, false) \/
     exists a, a ∈ concat [["a:1"; "b:2"]] /\ a <> "a:1" /\
       PickPeer s "Tom" = Ok (Some (NewClient (String.append "gocache/" a)), true)).
Proof.
  eexists. split; [reflexivity|].
  apply (pickpeer_after_set "a:1" [["a:1"; "b:2"]]).
  - reflexivity.
  - discriminate.
Defined.

Lemma stop_drops_ring_witness :
  (exists n', StopM (mkServerMu (mkServer "a:1" true (Some (New defaultReplicas None)) (Some ∅))
                               false) = Ok n' /\
     PickPeerM n' "Tom" = Panic "invalid memory address or nil pointer dereference") /\
  StopM (mkServerMu (NewServer "a:1") false) = Ok (mkServerMu (NewServer "a:1") false) /\
  StopM (mkServerMu (NewServer "a:1") true) = Hang.
Proof.
  split; [|split].
  - destruct (proj2 (proj2 (stop_drops_ring
                (mkServerMu (mkServer "a:1" true (Some (New defaultReplicas None)) (Some ∅)) false)))
                eq_refl eq_refl) as (n' & Hn' & _ & _ & Hp & _).
    exists n'. split; [exact Hn'|apply Hp].
  - apply (proj1 (proj2 (stop_drops_ring (mkServerMu (NewServer "a:1") false)))); reflexivity.
  - apply (proj1 (stop_drops_ring (mkServerMu (NewServer "a:1") true))). reflexivity.
Defined.

Lemma start_listen_failure_locks_witness :
  exists n', Start (mkServerMu (NewServer "localhost:9999") false)
               (fun _ => Some "address already in use") (false, None) =
             Ok (n', Some "failed to listen: address already in use") /\
    PickPeerM n' "Tom" = Hang.
Proof.
  destruct (start_listen_failure_locks (mkServerMu (NewServer "localhost:9999") false)
              (fun _ => Some "address already in use") (false, None) "9999"
              "address already in use")
    as (n' & Hs & _ & _ & _ & Hp & _).
  - reflexivity.
  - reflexivity.
  - reflexivity.
  - reflexivity.
  - exists n'. split; [exact Hs|apply Hp].
Defined.

End ServerExtra.
